(** * colour-demosaicing: the invoke task file [tasks.py]

    The task bodies and the prerequisite declarations are embedded from
    [tasks.py].  The machinery the file calls into ([invoke]'s context,
    command runner and executor) lives outside the repository and is
    modelled from the specification; every such definition says so. *)

From Stdlib Require Import Ascii ZArith Lia.
From stdpp Require Import gmap strings list sorting.

Open Scope Z_scope.
Open Scope string_scope.
Open Scope list_scope.

(** ** Execution state *)

(** Modelled from the spec: the Context of section 3, which is the context
    object of the invoke library and not part of the repository: the
    working-directory stack and the overlay of command prefixes of one
    invocation (most recent first). *)
Record Context := mkContext {
  command_cwds : list string;
  command_prefixes : list string
}.

(** Modelled from the spec: the ExecutionResult of section 3, what the
    Command Executor reports for one spawned command. *)
Record ExecutionResult := mkResult {
  exited : Z;
  stdout : string
}.

(** One observable step of a task body. *)
Inductive Event :=
| Message (text : string)
| Spawned (line : string) (ctx : Context) (hide : bool) (res : ExecutionResult).

Record State := mkState {
  context : Context;
  log : list Event
}.

Inductive Failure :=
| CommandFailed (code : Z)
| AssertionError (msg : string)
| IndexError
| AttributeError
| IOError
| CycleDetected
| UnknownTask.

(** How a piece of Python code finishes: it falls through with a value, it
    executes [return], or it raises. *)
Inductive Flow (A : Type) :=
| Normal (a : A)
| Returned
| Raised (e : Failure).
Arguments Normal {A} a.
Arguments Returned {A}.
Arguments Raised {A} e.

Definition Body (A : Type) : Type := State → Flow A * State.

#[global] Instance body_ret : MRet Body := λ A a st, (Normal a, st).

#[global] Instance body_bind : MBind Body := λ A B k m st,
  match m st with
  | (Normal a, st') => k a st'
  | (Returned, st') => (Returned, st')
  | (Raised e, st') => (Raised e, st')
  end.

(** The [return] statement. *)
Definition return_ : Body unit := λ st, (Returned, st).

Definition raise {A} (e : Failure) : Body A := λ st, (Raised e, st).

(** [assert cond, msg] *)
Definition assert_ (cond : bool) (msg : string) : Body unit :=
  if cond then mret tt else raise (AssertionError msg).

(** [for x in xs: body x] *)
Fixpoint for_each {A} (xs : list A) (body : A → Body unit) : Body unit :=
  match xs with
  | [] => mret tt
  | x :: xs' => body x ;; for_each xs' body
  end.

(** The boundary of a function call: a [return] executed inside the callee
    ends the callee, not the caller. *)
Definition call (body : Body unit) : Body unit := λ st,
  match body st with
  | (Returned, st') => (Normal tt, st')
  | out => out
  end.

(** [colour.utilities.message_box]: prints a boxed message. *)
Definition message_box (text : string) : Body unit := λ st,
  (Normal tt, mkState (context st) (log st ++ [Message text])).

Definition push_cwd (path : string) (c : Context) : Context :=
  mkContext (path :: command_cwds c) (command_prefixes c).
Definition pop_cwd (c : Context) : Context :=
  mkContext (tail (command_cwds c)) (command_prefixes c).
Definition push_prefix (command : string) (c : Context) : Context :=
  mkContext (command_cwds c) (command :: command_prefixes c).
Definition pop_prefix (c : Context) : Context :=
  mkContext (command_cwds c) (tail (command_prefixes c)).

Definition with_context (f : Context → Context) (st : State) : State :=
  mkState (f (context st)) (log st).

(** Modelled from the spec: [Context.cd] of the invoke library, which is
    not part of the repository (section 4.4, withDirectory): the directory is
    pushed before the body runs and popped on exit from the body, however the
    body finishes. *)
Definition cd {A} (path : string) (body : Body A) : Body A := λ st,
  let '(out, st') := body (with_context (push_cwd path) st) in
  (out, with_context pop_cwd st').

(** Modelled from the spec: [Context.prefix] of the invoke library, which is
    not part of the repository (section 4.4, withEnvironment): the overlay
    entry is added before the body runs and removed on exit from the body,
    however the body finishes. *)
Definition prefix {A} (command : string) (body : Body A) : Body A := λ st,
  let '(out, st') := body (with_context (push_prefix command) st) in
  (out, with_context pop_prefix st').

(** The command lines spawned so far, in order. *)
Definition lines_of (evs : list Event) : list string :=
  omap (λ e, match e with Spawned line _ _ _ => Some line | Message _ => None end) evs.

Definition failed (e : Event) : Prop :=
  match e with Spawned _ _ _ res => exited res ≠ 0 | Message _ => False end.

Definition exit_code (e : Event) : Z :=
  match e with Spawned _ _ _ res => exited res | Message _ => 0 end.

Definition dq : string := String "034"%char EmptyString.

(** A body that leaves the context as it found it, however it ends: what
    Python code can do to the context is open scopes, and every scope it
    opens is closed when control leaves it. *)
Definition scoped {A} (m : Body A) : Prop :=
  ∀ st, context (m st).2 = context st.

(** A body that only adds to the log, and that a failed command ends at
    once: if one of the commands it spawns fails, that command is the last
    thing it does and the body raises the failure. *)
Definition failfast {A} (m : Body A) : Prop :=
  ∀ st, ∃ evs,
    log (m st).2 = log st ++ evs ∧
    (Forall (λ e, ¬ failed e) evs ∨
     ∃ before_it e,
       evs = before_it ++ [e] ∧ Forall (λ e, ¬ failed e) before_it ∧
       failed e ∧ (m st).1 = Raised (CommandFailed (exit_code e))).

(** ** Tasks and the registry *)

(** A declared task: the names of its prerequisites, in the order the
    [@task(...)] decorator lists them, and its body. *)
Record Task := mkTask {
  pre : list string;
  body : Body unit
}.

Inductive Resolution :=
| Resolved (order : list string)
| Rejected (e : Failure).

(** Modelled from the spec: the tie-break of the Dependency Resolver
    (section 4.1), which is not part of the repository.  Visits the tasks [ts]
    from left to right, threading the tasks emitted so far through [visit1];
    the first rejection ends the traversal. *)
Fixpoint visit_each (visit1 : list string → string → option Resolution)
    (emitted ts : list string) : option Resolution :=
  match ts with
  | [] => Some (Resolved emitted)
  | t :: ts' =>
      match visit1 emitted t with
      | Some (Resolved emitted') => visit_each visit1 emitted' ts'
      | other => other
      end
  end.

(** Modelled from the spec: the Dependency Resolver (section 4.1), which is
    the executor of the invoke library and not part of the repository.  A
    depth-first traversal from the requested task: [stack] holds the tasks
    being expanded, [emitted] the tasks emitted so far, in order.  A task already
    emitted is skipped; a task met again while it is being expanded is a cycle;
    a name the registry does not declare is unknown; otherwise the
    prerequisites are visited in declared order and the task is emitted after
    them.  [None] means the recursion budget ran out. *)
Fixpoint visit (reg : gmap string Task) (fuel : nat) (stack emitted : list string)
    (t : string) : option Resolution :=
  match fuel with
  | O => None
  | S fuel' =>
      if decide (t ∈ emitted) then Some (Resolved emitted)
      else if decide (t ∈ stack) then Some (Rejected CycleDetected)
      else match reg !! t with
           | None => Some (Rejected UnknownTask)
           | Some task =>
               match visit_each (visit reg fuel' (t :: stack)) emitted (pre task) with
               | Some (Resolved emitted') => Some (Resolved (emitted' ++ [t]))
               | other => other
               end
           end
  end.

(** Modelled from the spec: [resolve(requestedTask)] (section 4.1).  The
    traversal stack never repeats a task and holds declared tasks only, so one
    more level than the registry has tasks is always enough. *)
Definition resolve (reg : gmap string Task) (t : string) : option Resolution :=
  visit reg (S (size reg)) [] [] t.

(** [x] lists [y] among its prerequisites. *)
Definition prereq (reg : gmap string Task) (x y : string) : Prop :=
  ∃ task, reg !! x = Some task ∧ y ∈ pre task.

(** [x] depends on [y], directly or transitively. *)
Definition depends (reg : gmap string Task) : relation string := tc (prereq reg).

Definition acyclic (reg : gmap string Task) : Prop := ∀ t, ¬ depends reg t t.

(** [x] is [t] or one of its direct or transitive prerequisites. *)
Definition reaches (reg : gmap string Task) (t x : string) : Prop :=
  x = t ∨ depends reg t x.

(** The requested task and everything reachable from it is declared. *)
Definition declared_from (reg : gmap string Task) (t : string) : Prop :=
  ∀ x, reaches reg t x → is_Some (reg !! x).

(** Every task of [l] has all its direct prerequisites at earlier positions. *)
Definition ordered (reg : gmap string Task) (l : list string) : Prop :=
  ∀ j x y, l !! j = Some x → prereq reg x y →
    ∃ i, (i < j)%nat ∧ l !! i = Some y.

(** [l] holds the prerequisites of all its tasks. *)
Definition closed (reg : gmap string Task) (l : list string) : Prop :=
  ∀ x y, x ∈ l → prereq reg x y → y ∈ l.

(** [y] stands strictly before [x] in [l]. *)
Definition before (l : list string) (y x : string) : Prop :=
  ∃ i j, (i < j)%nat ∧ l !! i = Some y ∧ l !! j = Some x.

(** Appends to [emitted] the tasks of [l] that [emitted] does not have yet. *)
Definition merge (emitted l : list string) : list string :=
  emitted ++ filter (λ x, x ∉ emitted) l.

(** Where [x] stands in [names]; the length of [names] when it does not. *)
Definition position (names : list string) (x : string) : nat :=
  match list_find (λ y, y = x) names with
  | Some (i, _) => i
  | None => length names
  end.

(** Every task names as prerequisites only tasks that stand before it in
    [names]: what a Python module guarantees when [names] is the order of
    the definitions, since a decorator can only be given tasks that are
    already bound. *)
Definition declared_in_order (reg : gmap string Task) (names : list string) : Prop :=
  map_Forall (λ x task,
    Forall (λ y, (position names y < position names x)%nat) (pre task)) reg.

(** Every prerequisite named in the registry is declared in it. *)
Definition complete (reg : gmap string Task) : Prop :=
  map_Forall (λ _ task, Forall (λ y, is_Some (reg !! y)) (pre task)) reg.

(** The traversal as a relation: [visits reg stack emitted t emitted'] when visiting
    [t] with [emitted] already emitted ends with [emitted'] emitted. *)
Inductive visits (reg : gmap string Task) :
    list string → list string → string → list string → Prop :=
| visits_skip stack emitted t :
    t ∈ emitted → visits reg stack emitted t emitted
| visits_emit stack emitted t task emitted' :
    t ∉ emitted → t ∉ stack → reg !! t = Some task →
    visits_each reg (t :: stack) emitted (pre task) emitted' →
    visits reg stack emitted t (emitted' ++ [t])
with visits_each (reg : gmap string Task) :
    list string → list string → list string → list string → Prop :=
| visits_nil stack emitted : visits_each reg stack emitted [] emitted
| visits_cons stack emitted t ts emitted1 emitted2 :
    visits reg stack emitted t emitted1 →
    visits_each reg stack emitted1 ts emitted2 →
    visits_each reg stack emitted (t :: ts) emitted2.

Scheme visits_min := Minimality for visits Sort Prop
  with visits_each_min := Minimality for visits_each Sort Prop.
Combined Scheme visits_mutind from visits_min, visits_each_min.

(** ** Execution of a resolved order *)

(** Modelled from the spec: Task Execution (section 4.2), which is the
    executor of the invoke library and not part of the repository.  The bodies
    run in resolver order on the shared state; the first body that does not
    complete ends the run.  The result lists the tasks whose body was entered. *)
Fixpoint execute (reg : gmap string Task) (order : list string) (st : State)
    : list string * (Flow unit * State) :=
  match order with
  | [] => ([], (Normal tt, st))
  | t :: rest =>
      match reg !! t with
      | None => ([], (Raised UnknownTask, st))
      | Some task =>
          match call (body task) st with
          | (Normal _, st') =>
              let '(ran, out) := execute reg rest st' in (t :: ran, out)
          | out => ([t], out)
          end
      end
  end.

(** Modelled from the spec: one invocation (sections 2 and 7): the requested
    task is resolved first, and a resolution error ends the invocation before
    any body runs.  The last case never arises: the budget of [resolve] does
    not run out ([resolve_total]). *)
Definition invoke (reg : gmap string Task) (t : string) (st : State)
    : list string * (Flow unit * State) :=
  match resolve reg t with
  | Some (Resolved order) => execute reg order st
  | Some (Rejected e) => ([], (Raised e, st))
  | None => ([], (Raised CycleDetected, st))
  end.

(** ** Python string operations used by [tag] *)

(** [str.isspace] on one character (code points below 256). *)
Definition is_space (c : ascii) : bool :=
  let n := nat_of_ascii c in
  ((9 <=? n) && (n <=? 13) || (28 <=? n) && (n <=? 32) || (n =? 133) || (n =? 160))%nat.

Fixpoint lstrip (s : string) : string :=
  match s with
  | EmptyString => EmptyString
  | String c s' => if is_space c then lstrip s' else s
  end.

Fixpoint reverse_onto (s acc : string) : string :=
  match s with
  | EmptyString => acc
  | String c s' => reverse_onto s' (String c acc)
  end.

Definition reversed (s : string) : string := reverse_onto s EmptyString.

(** [s.strip()] *)
Definition strip (s : string) : string := reversed (lstrip (reversed (lstrip s))).

(** [s.split(sep)] for a non-empty separator: [piece] collects the current
    piece backwards, [skip] counts the characters of a separator still to be
    passed over. *)
Fixpoint split_from (sep : string) (skip : nat) (piece : string) (s : string) : list string :=
  match s with
  | EmptyString => [reversed piece]
  | String c s' =>
      match skip with
      | S k => split_from sep k piece s'
      | O =>
          if String.prefix sep s
          then reversed piece :: split_from sep (String.length sep - 1) EmptyString s'
          else split_from sep 0 (String c piece) s'
      end
  end.

Definition split (sep s : string) : list string := split_from sep 0 EmptyString s.

(** [s.replace(old, new)] for a non-empty [old]. *)
Definition replace (old new s : string) : string := String.concat new (split old s).

(** [sorted(xs)] on strings. *)
Definition sorted (xs : list string) : list string := merge_sort String.le xs.

Definition newline : string := String "010"%char EmptyString.

Section Tasks.

(** The outside world: what a command answers, given everything that
    happened before it, its command line and the context it is spawned in. *)
Variable shell : list Event → string → Context → ExecutionResult.

(** The Python files [os.walk] and [fnmatch.filter] find under the examples
    directory, as joined paths in visiting order. *)
Variable example_files : list string.

(** [open(path).read()]; [None] when the file cannot be opened. *)
Variable read_file : string → option string.

(** [re.search(pattern, text)], reduced to the first group of the match;
    [None] when nothing matches. *)
Variable re_search : string → string → option string.

(** Modelled from the spec: [Context.run] of the invoke library, which is
    not part of the repository (section 4.3, Command Executor): the command is
    spawned in the current context, its result is returned, and a non-zero
    exit status is fatal, which is the default every call site of [tasks.py]
    keeps; [hide] only asks for the output to be captured. *)
Definition run (hide : bool) (line : string) : Body ExecutionResult := λ st,
  let res := shell (log st) line (context st) in
  let st' := mkState (context st) (log st ++ [Spawned line (context st) hide res]) in
  if decide (exited res = 0) then (Normal res, st') else (Raised (CommandFailed (exited res)), st').

Definition PYTHON_PACKAGE_NAME : string := "colour_demosaicing".
Definition PYPI_PACKAGE_NAME : string := "colour-demosaicing".

Definition clean (docs bytecode : bool) : Body unit :=
  message_box "Cleaning project..." ;;
  let patterns := ["build"; "*.egg-info"; "dist"] in
  let patterns := if docs then (patterns ++ ["docs/_build"]) ++ ["docs/generated"] else patterns in
  let patterns := if bytecode then patterns ++ ["**/*.pyc"] else patterns in
  for_each patterns (λ pattern, run false ("rm -rf " +:+ pattern) ;; mret tt).

Definition formatting (yapf asciify : bool) : Body unit :=
  (if yapf then
     message_box ("Formatting codebase with " +:+ dq +:+ "Yapf" +:+ dq +:+ "...") ;;
     run false "yapf -p -i -r ." ;; mret tt
   else mret tt) ;;
  (if asciify then
     message_box "Converting unicode characters to ASCII..." ;;
     cd "utilities" (run false "./unicode_to_ascii.py" ;; mret tt)
   else mret tt).

Definition tests (nose : bool) : Body unit :=
  return_ ;;
  (if nose then
     message_box ("Running " +:+ dq +:+ "Nosetests" +:+ dq +:+ "...") ;;
     run false ("nosetests --with-doctest --with-coverage --cover-package="
                +:+ PYTHON_PACKAGE_NAME +:+ " " +:+ PYTHON_PACKAGE_NAME) ;; mret tt
   else
     message_box ("Running " +:+ dq +:+ "Pytest" +:+ dq +:+ "...") ;;
     run false "pytest -W ignore" ;; mret tt).

Definition quality (flake8 rstlint : bool) : Body unit :=
  (if flake8 then
     message_box ("Checking codebase with " +:+ dq +:+ "Flake8" +:+ dq +:+ "...") ;;
     run false ("flake8 " +:+ PYTHON_PACKAGE_NAME +:+ " --exclude=examples") ;; mret tt
   else mret tt) ;;
  (if rstlint then
     message_box ("Linting " +:+ dq +:+ "README.rst" +:+ dq +:+ " file...") ;;
     run false "rst-lint README.rst" ;; mret tt
   else mret tt).

Definition examples : Body unit :=
  message_box "Running examples..." ;;
  for_each example_files (λ path, run false ("python " +:+ path) ;; mret tt).

Definition docs (html pdf : bool) : Body unit :=
  prefix "export COLOUR_SCIENCE_DOCUMENTATION_BUILD=True"
    (cd "docs"
       ((if html then
           message_box ("Building " +:+ dq +:+ "HTML" +:+ dq +:+ " documentation...") ;;
           run false "make html" ;; mret tt
         else mret tt) ;;
        (if pdf then
           message_box ("Building " +:+ dq +:+ "PDF" +:+ dq +:+ " documentation...") ;;
           run false "make latexpdf" ;; mret tt
         else mret tt))).

Definition todo : Body unit :=
  message_box ("Exporting " +:+ dq +:+ "TODO" +:+ dq +:+ " items...") ;;
  cd "utilities" (run false "./export_todo.py" ;; mret tt).

Definition preflight : Body unit :=
  message_box ("Finishing " +:+ dq +:+ "Preflight" +:+ dq +:+ "...").

Definition build : Body unit :=
  message_box "Building..." ;;
  run false "python setup.py sdist" ;;
  run false "python setup.py bdist_wheel --universal" ;;
  mret tt.

Definition pip_binary : string := "../staging/bin/pip".
Definition nosetests_binary : string := "../staging/bin/nosetests".

Definition virtualise (tests : bool) : Body unit :=
  cd "dist"
    (run false ("tar -xvf " +:+ PYPI_PACKAGE_NAME +:+ "-*.tar.gz") ;;
     run false "virtualenv staging" ;;
     cd (PYPI_PACKAGE_NAME +:+ "-*")
       (run false "pwd" ;;
        run false (pip_binary +:+ " install numpy==1.13.3") ;;
        run false (pip_binary +:+ " install -e .") ;;
        run false (pip_binary +:+ " install matplotlib") ;;
        run false (pip_binary +:+ " install nose") ;;
        run false (pip_binary +:+ " install mock") ;;
        (if tests then
           return_ ;;
           run false nosetests_binary ;; mret tt
         else mret tt))).

(** [open(path)] followed by [read()]. *)
Definition open_read (path : string) : Body string := λ st,
  match read_file path with
  | Some text => (Normal text, st)
  | None => (Raised IOError, st)
  end.

(** [re.search(pattern, text).group(1)]: a failed search gives [None], which
    has no [group]. *)
Definition search_group1 (pattern text : string) : Body string := λ st,
  match re_search pattern text with
  | Some g => (Normal g, st)
  | None => (Raised AttributeError, st)
  end.

(** [xs[i]] *)
Definition item {A} (xs : list A) (i : nat) : Body A := λ st,
  match xs !! i with
  | Some x => (Normal x, st)
  | None => (Raised IndexError, st)
  end.

(** A [for] loop that updates one local variable. *)
Fixpoint for_fold {A B} (xs : list A) (acc : B) (body : B → A → Body B) : Body B :=
  match xs with
  | [] => mret acc
  | x :: xs' => acc' ← body acc x ; for_fold xs' acc' body
  end.

(** The body of the loop of [tag] over the lines of the remote tag list. *)
Definition add_remote_tag (tags : gset string) (remote_tag : string) : Body (gset string) :=
  name ← item (split "refs/tags/" remote_tag) 1 ;
  mret ({[ replace "refs/tags/" "^{}" name ]} ∪ tags).

Definition tag : Body unit :=
  message_box "Tagging..." ;;
  result ← run true "git rev-parse --abbrev-ref HEAD" ;
  assert_ (bool_decide (strip (stdout result) = "develop"))
    "Are you still on a feature or master branch?" ;;
  file_content ← open_read (PYTHON_PACKAGE_NAME +:+ "/" +:+ "__init__.py") ;
  major_version ← search_group1 "__major_version__\s+=\s+'(.*)'" file_content ;
  minor_version ← search_group1 "__minor_version__\s+=\s+'(.*)'" file_content ;
  change_version ← search_group1 "__change_version__\s+=\s+'(.*)'" file_content ;
  let version := String.concat "." [major_version; minor_version; change_version] in
  result ← run true "git ls-remote --tags upstream" ;
  let remote_tags := split newline (strip (stdout result)) in
  tags ← for_fold remote_tags (∅ : gset string) add_remote_tag ;
  let tags := sorted (elements tags) in
  assert_ (bool_decide ("v" +:+ version ∉ tags))
    ("A " +:+ dq +:+ PYTHON_PACKAGE_NAME +:+ dq +:+ " " +:+ dq +:+ "v" +:+ version +:+ dq
     +:+ " tag already exists in remote repository!") ;;
  run false ("git flow release start v" +:+ version) ;;
  run false ("git flow release finish v" +:+ version) ;;
  mret tt.

Definition release : Body unit :=
  message_box "Releasing..." ;;
  cd "dist"
    (run false "twine upload *.tar.gz" ;;
     run false "twine upload *.whl" ;;
     mret tt).

Definition sha256 : Body unit :=
  message_box ("Computing " +:+ dq +:+ "sha256" +:+ dq +:+ "...") ;;
  cd "dist" (run false ("openssl sha256 " +:+ PYPI_PACKAGE_NAME +:+ "-*.tar.gz") ;; mret tt).

(** The tasks [tasks.py] declares, each with the prerequisites its decorator
    names and its body at the default options. *)
Definition registry : gmap string Task :=
  list_to_map [
    ("clean", mkTask [] (clean true false));
    ("formatting", mkTask [] (formatting false true));
    ("tests", mkTask [] (tests true));
    ("quality", mkTask [] (quality true true));
    ("examples", mkTask [] examples);
    ("docs", mkTask [] (docs true true));
    ("todo", mkTask [] todo);
    ("preflight", mkTask ["formatting"; "tests"; "quality"; "examples"] preflight);
    ("build", mkTask ["docs"; "todo"; "preflight"] build);
    ("virtualise", mkTask ["clean"; "build"] (virtualise true));
    ("tag", mkTask [] tag);
    ("release", mkTask ["clean"; "build"] release);
    ("sha256", mkTask [] sha256)
  ].

(** The tasks in the order [tasks.py] defines them. *)
Definition declaration_order : list string :=
  ["clean"; "formatting"; "tests"; "quality"; "examples"; "docs"; "todo";
   "preflight"; "build"; "virtualise"; "tag"; "release"; "sha256"].

(** The order in which a request for [build] runs the tasks. *)
Definition build_order : list string :=
  ["docs"; "todo"; "formatting"; "tests"; "quality"; "examples"; "preflight"; "build"].

End Tasks.

(** An invocation starts in the invocation directory with no overlay and
    nothing logged. *)
Definition initial : State := mkState (mkContext [] []) [].

(** The commands a complete run of [clean] spawns. *)
Definition clean_commands (docs bytecode : bool) : list string :=
  ["rm -rf build"; "rm -rf *.egg-info"; "rm -rf dist"]
  ++ (if docs then ["rm -rf docs/_build"; "rm -rf docs/generated"] else [])
  ++ (if bytecode then ["rm -rf **/*.pyc"] else []).

(** The commands a complete run of [virtualise] spawns. *)
Definition virtualise_commands : list string :=
  ["tar -xvf colour-demosaicing-*.tar.gz";
   "virtualenv staging";
   "pwd";
   "../staging/bin/pip install numpy==1.13.3";
   "../staging/bin/pip install -e .";
   "../staging/bin/pip install matplotlib";
   "../staging/bin/pip install nose";
   "../staging/bin/pip install mock"].

(** The body ended without raising. *)
Definition completes {A} (out : Flow A) : Prop :=
  match out with Raised _ => False | _ => True end.

(** [issues shell m cmds]: from any state, [m] spawns an initial part of
    [cmds], in order and nothing else; all of [cmds] when it ends without
    raising, which it does when no command fails. *)
Definition issues (shell : list Event → string → Context → ExecutionResult)
    {A} (m : Body A) (cmds : list string) : Prop :=
  ∀ st, ∃ issued,
    lines_of (log (m st).2) = lines_of (log st) ++ issued ∧
    issued `prefix_of` cmds ∧
    (completes (m st).1 → issued = cmds) ∧
    ((∀ h l c, exited (shell h l c) = 0) → completes (m st).1).

(** A shell in which every command succeeds and prints nothing. *)
Definition quiet_shell : list Event → string → Context → ExecutionResult :=
  λ _ _ _, mkResult 0 EmptyString.

(** ** What [tag] looks at *)

Definition branch_command : string := "git rev-parse --abbrev-ref HEAD".
Definition tags_command : string := "git ls-remote --tags upstream".

(** The answer to the branch probe, which [tag] spawns right after its
    message. *)
Definition branch_probe (shell : list Event → string → Context → ExecutionResult)
    (st : State) : ExecutionResult :=
  shell (log st ++ [Message "Tagging..."]) branch_command (context st).

(** The state once the branch probe has answered. *)
Definition after_branch_probe (shell : list Event → string → Context → ExecutionResult)
    (st : State) : State :=
  mkState (context st)
    ((log st ++ [Message "Tagging..."])
       ++ [Spawned branch_command (context st) true (branch_probe shell st)]).

(** The answer to the probe of the remote tags. *)
Definition tags_probe (shell : list Event → string → Context → ExecutionResult)
    (st : State) : ExecutionResult :=
  shell (log (after_branch_probe shell st)) tags_command (context st).

(** The state once the probe of the remote tags has answered. *)
Definition after_tags_probe (shell : list Event → string → Context → ExecutionResult)
    (st : State) : State :=
  mkState (context st)
    (log (after_branch_probe shell st)
       ++ [Spawned tags_command (context st) true (tags_probe shell st)]).

(** The version [tag] reads from the package's [__init__.py]. *)
Definition package_version (read_file : string → option string)
    (re_search : string → string → option string) : option string :=
  file_content ← read_file "colour_demosaicing/__init__.py" ;
  major_version ← re_search "__major_version__\s+=\s+'(.*)'" file_content ;
  minor_version ← re_search "__minor_version__\s+=\s+'(.*)'" file_content ;
  change_version ← re_search "__change_version__\s+=\s+'(.*)'" file_content ;
  Some (String.concat "." [major_version; minor_version; change_version]).

(** The tag a line of [git ls-remote --tags] names, as [tag] reads it. *)
Definition remote_tag_name (remote_tag : string) : option string :=
  replace "refs/tags/" "^{}" <$> split "refs/tags/" remote_tag !! 1%nat.

(** The lines of the remote tag list. *)
Definition remote_tags (out : string) : list string := split newline (strip out).

(** Some line of the remote tag list names the tag of [version]. *)
Definition remote_has_tag (version out : string) : Prop :=
  ∃ remote_tag, remote_tag ∈ remote_tags out ∧
    remote_tag_name remote_tag = Some ("v" +:+ version).

Definition wrong_branch_message : string :=
  "Are you still on a feature or master branch?".

Definition tag_exists_message (version : string) : string :=
  "A " +:+ dq +:+ PYTHON_PACKAGE_NAME +:+ dq +:+ " " +:+ dq +:+ "v" +:+ version +:+ dq
  +:+ " tag already exists in remote repository!".

(** The two commands [tag] spawns once its checks have passed. *)
Definition release_commands (version : string) : list string :=
  ["git flow release start v" +:+ version; "git flow release finish v" +:+ version].

(** The ways a run of [tag] from [st] can end, with the outcome and the
    final state of each. *)
Inductive tag_run (shell : list Event → string → Context → ExecutionResult)
    (read_file : string → option string)
    (re_search : string → string → option string)
    (st : State) : Flow unit → State → Prop :=
| tag_branch_probe_failed :
    exited (branch_probe shell st) ≠ 0 →
    tag_run shell read_file re_search st
      (Raised (CommandFailed (exited (branch_probe shell st))))
      (after_branch_probe shell st)
| tag_wrong_branch :
    exited (branch_probe shell st) = 0 →
    strip (stdout (branch_probe shell st)) ≠ "develop" →
    tag_run shell read_file re_search st
      (Raised (AssertionError wrong_branch_message))
      (after_branch_probe shell st)
| tag_no_version e :
    exited (branch_probe shell st) = 0 →
    strip (stdout (branch_probe shell st)) = "develop" →
    package_version read_file re_search = None →
    e = IOError ∨ e = AttributeError →
    tag_run shell read_file re_search st (Raised e) (after_branch_probe shell st)
| tag_tags_probe_failed version :
    exited (branch_probe shell st) = 0 →
    strip (stdout (branch_probe shell st)) = "develop" →
    package_version read_file re_search = Some version →
    exited (tags_probe shell st) ≠ 0 →
    tag_run shell read_file re_search st
      (Raised (CommandFailed (exited (tags_probe shell st))))
      (after_tags_probe shell st)
| tag_list_unreadable version :
    exited (branch_probe shell st) = 0 →
    strip (stdout (branch_probe shell st)) = "develop" →
    package_version read_file re_search = Some version →
    exited (tags_probe shell st) = 0 →
    ¬ Forall (λ remote_tag, is_Some (remote_tag_name remote_tag))
        (remote_tags (stdout (tags_probe shell st))) →
    tag_run shell read_file re_search st (Raised IndexError) (after_tags_probe shell st)
| tag_exists version :
    exited (branch_probe shell st) = 0 →
    strip (stdout (branch_probe shell st)) = "develop" →
    package_version read_file re_search = Some version →
    exited (tags_probe shell st) = 0 →
    remote_has_tag version (stdout (tags_probe shell st)) →
    tag_run shell read_file re_search st
      (Raised (AssertionError (tag_exists_message version)))
      (after_tags_probe shell st)
| tag_released version out st' :
    exited (branch_probe shell st) = 0 →
    strip (stdout (branch_probe shell st)) = "develop" →
    package_version read_file re_search = Some version →
    exited (tags_probe shell st) = 0 →
    ¬ remote_has_tag version (stdout (tags_probe shell st)) →
    (run shell false ("git flow release start v" +:+ version) ;;
     run shell false ("git flow release finish v" +:+ version) ;;
     mret tt) (after_tags_probe shell st) = (out, st') →
    tag_run shell read_file re_search st out st'.

Definition tab : string := String "009"%char EmptyString.

(** A shell outside any repository: the branch probe fails with status 128,
    every other command succeeds. *)
Definition detached_shell : list Event → string → Context → ExecutionResult :=
  λ _ line _, if decide (line = branch_command) then mkResult 128 EmptyString
              else mkResult 0 EmptyString.

(** A shell on branch develop whose remote [upstream] is missing: the probe
    of the remote tags fails with status 128. *)
Definition no_upstream_shell : list Event → string → Context → ExecutionResult :=
  λ _ line _,
    if decide (line = branch_command) then mkResult 0 ("develop" +:+ newline)
    else if decide (line = tags_command) then mkResult 128 EmptyString
    else mkResult 0 EmptyString.

(** A shell on branch develop whose remote has the tags v0.1.0 and v0.1.1. *)
Definition develop_shell : list Event → string → Context → ExecutionResult :=
  λ _ line _,
    if decide (line = branch_command) then mkResult 0 ("develop" +:+ newline)
    else if decide (line = tags_command) then
      mkResult 0 ("1f2e3d" +:+ tab +:+ "refs/tags/v0.1.0" +:+ newline +:+
                  "4c5b6a" +:+ tab +:+ "refs/tags/v0.1.1" +:+ newline)
    else mkResult 0 EmptyString.

(** A shell on branch develop whose remote has no tag yet. *)
Definition fresh_remote_shell : list Event → string → Context → ExecutionResult :=
  λ _ line _,
    if decide (line = branch_command) then mkResult 0 ("develop" +:+ newline)
    else mkResult 0 EmptyString.

(** A file system in which every file opens. *)
Definition any_file : string → option string := λ _, Some EmptyString.

(** A search under which the package version reads 0.1.[change]. *)
Definition version_parts (change : string) : string → string → option string :=
  λ pattern _,
    if String.prefix "__major" pattern then Some "0"
    else if String.prefix "__minor" pattern then Some "1"
    else Some change.

(** A shell in which [make C] fails with status 2 and every other command
    succeeds. *)
Definition chain_shell : list Event → string → Context → ExecutionResult :=
  λ _ line _, if decide (line = "make C") then mkResult 2 EmptyString
              else mkResult 0 EmptyString.

(** The chain A → B → C: A depends on B, B depends on C. *)
Definition chain : gmap string Task :=
  list_to_map [
    ("A", mkTask ["B"] (run chain_shell false "make A" ;; mret tt));
    ("B", mkTask ["C"] (run chain_shell false "make B" ;; mret tt));
    ("C", mkTask [] (run chain_shell false "make C" ;; mret tt))
  ].

(** A registry in which the task ["tests"], with the body [tasks.py] gives
    it, is reachable from ["top"] along two paths. *)
Definition diamond : gmap string Task :=
  list_to_map [
    ("tests", mkTask [] (tests quiet_shell true));
    ("left", mkTask ["tests"] (message_box "left"));
    ("right", mkTask ["tests"; "left"] (message_box "right"));
    ("top", mkTask ["left"; "right"] (message_box "top"))
  ].

(** No occurrence of [sep] starts inside [s]. *)
Fixpoint no_sep (sep s : string) : bool :=
  match s with
  | EmptyString => true
  | String c s' => negb (String.prefix sep s) && no_sep sep s'
  end.

(** No occurrence of [sep] starts inside [q] when [q] is followed by [s]. *)
Fixpoint clean_before (sep q s : string) : bool :=
  match q with
  | EmptyString => true
  | String c q' => negb (String.prefix sep (q +:+ s)) && clean_before sep q' s
  end.

(** ** The calls of a body *)

(** The commands spawned so far, each with the context it was spawned in. *)
Definition calls_of (evs : list Event) : list (string * Context) :=
  omap (λ e, match e with
             | Spawned line ctx _ _ => Some (line, ctx)
             | Message _ => None
             end) evs.

(** A call a body makes: the command line, and the context the command sees
    as a function of the context the body was entered with. *)
Definition Call : Type := string * (Context → Context).

(** The calls [cmds] of a body entered with context [c]. *)
Definition in_context (c : Context) (cmds : list Call) : list (string * Context) :=
  map (λ x, (x.1, x.2 c)) cmds.

(** The calls [cmds] of a body that runs inside a scope opened by [f]. *)
Definition inside (f : Context → Context) (cmds : list Call) : list Call :=
  map (λ x, (x.1, λ c, x.2 (f c))) cmds.

(** [spawns shell may_return m cmds]: from any state, [m] spawns an initial
    part of [cmds], each command in its context, in order and nothing else;
    all of [cmds] when it ends without raising, which it does when no
    command fails; it hands back the context it was entered with; and it
    does not execute [return] unless [may_return] is set. *)
Definition spawns (shell : list Event → string → Context → ExecutionResult)
    (may_return : bool) {A} (m : Body A) (cmds : list Call) : Prop :=
  ∀ st, ∃ issued,
    calls_of (log (m st).2) = calls_of (log st) ++ in_context (context st) issued ∧
    issued `prefix_of` cmds ∧
    (completes (m st).1 → issued = cmds) ∧
    ((∀ h l c, exited (shell h l c) = 0) → completes (m st).1) ∧
    context (m st).2 = context st ∧
    (may_return = false → (m st).1 ≠ Returned).

Definition formatting_calls (yapf asciify : bool) : list Call :=
  (if yapf then [("yapf -p -i -r .", id)] else [])
  ++ (if asciify then [("./unicode_to_ascii.py", push_cwd "utilities")] else []).

Definition quality_calls (flake8 rstlint : bool) : list Call :=
  (if flake8 then [("flake8 colour_demosaicing --exclude=examples", id)] else [])
  ++ (if rstlint then [("rst-lint README.rst", id)] else []).

Definition examples_calls (example_files : list string) : list Call :=
  map (λ path, ("python " +:+ path, id)) example_files.

(** The context the documentation is built in. *)
Definition docs_context (c : Context) : Context :=
  push_cwd "docs" (push_prefix "export COLOUR_SCIENCE_DOCUMENTATION_BUILD=True" c).

Definition docs_calls (html pdf : bool) : list Call :=
  (if html then [("make html", docs_context)] else [])
  ++ (if pdf then [("make latexpdf", docs_context)] else []).

Definition todo_calls : list Call := [("./export_todo.py", push_cwd "utilities")].



Definition sha256_calls : list Call :=
  [("openssl sha256 colour-demosaicing-*.tar.gz", push_cwd "dist")].

(** The directory of the unpacked source distribution, inside [dist]. *)
Definition staging_context (c : Context) : Context :=
  push_cwd "colour-demosaicing-*" (push_cwd "dist" c).

Definition virtualise_calls : list Call :=
  [("tar -xvf colour-demosaicing-*.tar.gz", push_cwd "dist");
   ("virtualenv staging", push_cwd "dist");
   ("pwd", staging_context);
   ("../staging/bin/pip install numpy==1.13.3", staging_context);
   ("../staging/bin/pip install -e .", staging_context);
   ("../staging/bin/pip install matplotlib", staging_context);
   ("../staging/bin/pip install nose", staging_context);
   ("../staging/bin/pip install mock", staging_context)].

(** The tasks that run before [release] and before [virtualise]. *)
Definition clean_and_build : list string :=
  ["clean"; "docs"; "todo"; "formatting"; "tests"; "quality"; "examples";
   "preflight"; "build"].

Create HintDb scoped.
Create HintDb failfast.

(** Splits a goal about every task of a registry given as a list into one
    goal for each of its entries, with the bodies of [tasks.py] unfolded. *)
Ltac each_task H :=
  apply elem_of_list_to_map_2 in H;
  repeat (apply elem_of_cons in H as [[= -> ->]|H]);
  [..|by apply elem_of_nil in H]; simpl;
  unfold clean, formatting, tests, quality, examples, docs, todo, preflight,
    build, virtualise, tag, release, sha256.

(** * The resolver *)

Section ResolverFacts.

Variable reg : gmap string Task.

(** ** The function computes the relation *)

Lemma visit_each_sound visit1 stack d ts d' :
  (∀ d t d', visit1 d t = Some (Resolved d') → visits reg stack d t d') →
  visit_each visit1 d ts = Some (Resolved d') →
  visits_each reg stack d ts d'.
Proof.
  intros Hv. revert d. induction ts as [|t ts IH]; intros d Heq; simpl in Heq.
  - injection Heq as <-. constructor.
  - destruct (visit1 d t) as [[d1|e]|] eqn:E1; try discriminate.
    econstructor; eauto.
Qed.

Lemma visit_sound fuel stack d t d' :
  visit reg fuel stack d t = Some (Resolved d') →
  visits reg stack d t d'.
Proof.
  revert stack d t d'. induction fuel as [|fuel IH]; intros stack d t d' Heq.
  - discriminate.
  - simpl in Heq. destruct (decide (t ∈ d)) as [Hin|Hnin].
    { injection Heq as <-. by constructor. }
    destruct (decide (t ∈ stack)) as [|Hstack]; [discriminate|].
    destruct (reg !! t) as [task|] eqn:Et; [|discriminate].
    destruct (visit_each _ d (pre task)) as [[d1|e]|] eqn:E1; try discriminate.
    injection Heq as <-. econstructor; eauto.
    eapply visit_each_sound; [|exact E1]. intros; by apply IH.
Qed.

(** ** The traversal stack is short *)

Lemma stack_bound (stack : list string) :
  NoDup stack → (∀ s, s ∈ stack → is_Some (reg !! s)) → (length stack ≤ size reg)%nat.
Proof.
  intros Hnd Hdecl. rewrite <- size_dom. unfold size, set_size. simpl.
  apply submseteq_length, NoDup_submseteq; [done|].
  intros s Hs. apply elem_of_elements, elem_of_dom. auto.
Qed.

Lemma visit_each_total visit1 d ts :
  (∀ d0 t, t ∈ ts → visit1 d0 t ≠ None) → visit_each visit1 d ts ≠ None.
Proof.
  revert d. induction ts as [|t ts IH]; intros d Hv; simpl; [done|].
  destruct (visit1 d t) as [[d1|e]|] eqn:E1; try done.
  - apply IH. intros; apply Hv. by right.
  - exfalso. eapply Hv; [|exact E1]. by left.
Qed.

Lemma visit_total fuel stack d t :
  NoDup stack → (∀ s, s ∈ stack → is_Some (reg !! s)) →
  (size reg < fuel + length stack)%nat →
  visit reg fuel stack d t ≠ None.
Proof.
  revert stack d t. induction fuel as [|fuel IH]; intros stack d t Hnd Hdecl Hfuel.
  - pose proof (stack_bound stack Hnd Hdecl). simpl in Hfuel. lia.
  - simpl. destruct (decide (t ∈ d)); [done|].
    destruct (decide (t ∈ stack)); [done|].
    destruct (reg !! t) as [task|] eqn:Et; [|done].
    pose proof (visit_each_total (visit reg fuel (t :: stack)) d (pre task)) as Hall.
    destruct (visit_each _ d (pre task)) as [[d1|e]|]; try done.
    apply Hall. intros d0 p _. apply IH.
    + by constructor.
    + intros s [->|Hs]%elem_of_cons; [by rewrite Et | auto].
    + simpl. lia.
Qed.

(** The recursion budget of [resolve] never runs out, whatever the registry. *)
Lemma resolve_total t : resolve reg t ≠ None.
Proof.
  apply visit_total.
  - constructor.
  - intros s Hs. by apply elem_of_nil in Hs.
  - simpl. lia.
Qed.

(** ** What a successful traversal emits *)

Lemma reaches_prereq t p x : prereq reg t p → reaches reg p x → reaches reg t x.
Proof.
  intros Hp [->|Hd]; right; [by apply tc_once | by eapply tc_l].
Qed.

Lemma visits_extends :
  (∀ stack d t d', visits reg stack d t d' →
     ∃ new, d' = d ++ new ∧ (∀ x, x ∈ new → (x ∉ stack) ∧ reaches reg t x)) ∧
  (∀ stack d ts d', visits_each reg stack d ts d' →
     ∃ new, d' = d ++ new ∧
       (∀ x, x ∈ new → (x ∉ stack) ∧ ∃ t, t ∈ ts ∧ reaches reg t x)).
Proof.
  apply visits_mutind.
  - intros stack d t _. exists []. split; [by rewrite app_nil_r|].
    intros x Hx. by apply elem_of_nil in Hx.
  - intros stack d t task d' Hd Hs Ht _ (new & -> & Hnew).
    exists (new ++ [t]). split; [by rewrite app_assoc|].
    intros x [Hx|Hx%list_elem_of_singleton]%elem_of_app.
    + destruct (Hnew x Hx) as (Hnotin & p & Hp & Hreach). split.
      * intros Hin. apply Hnotin. by right.
      * eapply reaches_prereq; [|exact Hreach]. by exists task.
    + subst x. split; [done | by left].
  - intros stack d. exists []. split; [by rewrite app_nil_r|].
    intros x Hx. by apply elem_of_nil in Hx.
  - intros stack d t ts d1 d2 _ (n1 & -> & H1) _ (n2 & -> & H2).
    exists (n1 ++ n2). split; [by rewrite app_assoc|].
    intros x [Hx|Hx]%elem_of_app.
    + destruct (H1 x Hx) as [? ?]. split; [done|]. exists t. split; [by left | done].
    + destruct (H2 x Hx) as (? & p & ? & ?). split; [done|].
      exists p. split; [by right | done].
Qed.

Lemma visits_emits :
  (∀ stack d t d', visits reg stack d t d' → t ∈ d') ∧
  (∀ stack d ts d', visits_each reg stack d ts d' → ∀ t, t ∈ ts → t ∈ d').
Proof.
  apply visits_mutind.
  - done.
  - intros. apply elem_of_app. right. by left.
  - intros stack d t Ht. by apply elem_of_nil in Ht.
  - intros stack d t ts d1 d2 _ Hin1 Hrest Hin2 p [->|Hp]%elem_of_cons; [|by auto].
    destruct (proj2 visits_extends _ _ _ _ Hrest) as (new & -> & _).
    apply elem_of_app. by left.
Qed.

Lemma visits_NoDup :
  (∀ stack d t d', visits reg stack d t d' → NoDup d → NoDup d') ∧
  (∀ stack d ts d', visits_each reg stack d ts d' → NoDup d → NoDup d').
Proof.
  apply visits_mutind; try done.
  - intros stack d t task d' Hd Hs Ht Hpre IH Hnd.
    apply NoDup_app. split; [by auto|]. split; [|apply NoDup_singleton].
    intros x Hx ->%list_elem_of_singleton.
    destruct (proj2 visits_extends _ _ _ _ Hpre) as (new & -> & Hnew).
    apply elem_of_app in Hx as [Hx|Hx]; [done|].
    destruct (Hnew _ Hx) as [Hnotin _]. apply Hnotin. by left.
  - auto.
Qed.

Lemma visits_ordered :
  (∀ stack d t d', visits reg stack d t d' → ordered reg d → ordered reg d') ∧
  (∀ stack d ts d', visits_each reg stack d ts d' → ordered reg d → ordered reg d').
Proof.
  apply visits_mutind; try done.
  - intros stack d t task d' Hd Hs Ht Hpre IH Hord j x y Hj Hxy.
    apply lookup_snoc_Some in Hj as [[Hlt Hj]|[-> ->]].
    + destruct (IH Hord j x y Hj Hxy) as (i & Hi & Hy).
      exists i. split; [done|]. rewrite lookup_app_l; [done|]. lia.
    + destruct Hxy as (task' & Ht' & Hy). rewrite Ht in Ht'. injection Ht' as <-.
      pose proof (proj2 visits_emits _ _ _ _ Hpre y Hy) as Hin.
      apply list_elem_of_lookup in Hin as [i Hi].
      exists i. split; [by eapply lookup_lt_Some|]. rewrite lookup_app_l; [done|].
      by eapply lookup_lt_Some.
  - auto.
Qed.

(** In an ordered list every task comes strictly after everything it
    depends on. *)
Lemma ordered_depends l j x y :
  ordered reg l → depends reg x y → l !! j = Some x →
  ∃ i, (i < j)%nat ∧ l !! i = Some y.
Proof.
  intros Hord Hdep. revert j. induction Hdep as [x y Hxy|x z y Hxz _ IH]; intros j Hj.
  - by apply (Hord j x y).
  - destruct (Hord j x z Hj Hxz) as (k & Hk & Hz).
    destruct (IH k Hz) as (i & Hik & Hy).
    exists i. split; [lia | done].
Qed.

Lemma ordered_closed l : ordered reg l → closed reg l.
Proof.
  intros Hord x y [j Hj]%list_elem_of_lookup Hxy.
  destruct (Hord j x y Hj Hxy) as (i & _ & Hi). apply list_elem_of_lookup. by exists i.
Qed.

Lemma closed_reaches l t x : closed reg l → t ∈ l → reaches reg t x → x ∈ l.
Proof.
  intros Hcl Ht [->|Hdep]; [done|].
  induction Hdep as [t x Htx|t z x Htz _ IH]; [by eapply Hcl|].
  apply IH. by eapply Hcl.
Qed.

(** ** Success on acyclic registries *)

Lemma visit_each_succeeds visit1 d ts :
  (∀ d0 t, t ∈ ts → ∃ d', visit1 d0 t = Some (Resolved d')) →
  ∃ d', visit_each visit1 d ts = Some (Resolved d').
Proof.
  revert d. induction ts as [|t ts IH]; intros d Hv; simpl; [by eexists|].
  destruct (Hv d t) as [d1 ->]; [by left|].
  apply IH. intros d0 p Hp. apply Hv. by right.
Qed.

Lemma visit_succeeds fuel stack d t :
  acyclic reg → declared_from reg t →
  NoDup stack → (∀ s, s ∈ stack → is_Some (reg !! s)) →
  (∀ s, s ∈ stack → depends reg s t) →
  (size reg < fuel + length stack)%nat →
  ∃ d', visit reg fuel stack d t = Some (Resolved d').
Proof.
  intros Hacyc. revert stack d t.
  induction fuel as [|fuel IH]; intros stack d t Hdecl Hnd Hin Hanc Hfuel.
  - pose proof (stack_bound stack Hnd Hin). simpl in Hfuel. lia.
  - simpl. destruct (decide (t ∈ d)); [by eexists|].
    destruct (decide (t ∈ stack)) as [Hs|Hs].
    { destruct (Hacyc t). by apply Hanc. }
    destruct (Hdecl t) as [task Ht]; [by left|]. rewrite Ht.
    destruct (visit_each_succeeds (visit reg fuel (t :: stack)) d (pre task)) as [d1 ->];
      [|by eexists].
    intros d0 p Hp. assert (prereq reg t p) as Htp by (by exists task).
    apply IH.
    + intros x Hx. apply Hdecl. by eapply reaches_prereq.
    + by constructor.
    + intros s [->|Hs']%elem_of_cons; [by rewrite Ht | auto].
    + intros s [->|Hs']%elem_of_cons; [by apply tc_once|].
      eapply tc_r; [|exact Htp]. by apply Hanc.
    + simpl. lia.
Qed.

Lemma resolve_succeeds t :
  acyclic reg → declared_from reg t → ∃ order, resolve reg t = Some (Resolved order).
Proof.
  intros Hacyc Hdecl. apply visit_succeeds; try done.
  - constructor.
  - intros s Hs. by apply elem_of_nil in Hs.
  - intros s Hs. by apply elem_of_nil in Hs.
  - simpl. lia.
Qed.

(** ** The emitted order does not depend on the traversal stack *)

Lemma visits_deterministic :
  (∀ s d t d1, visits reg s d t d1 → ∀ s' d2, visits reg s' d t d2 → d1 = d2) ∧
  (∀ s d ts d1, visits_each reg s d ts d1 →
     ∀ s' d2, visits_each reg s' d ts d2 → d1 = d2).
Proof.
  apply visits_mutind.
  - intros s d t Hin s' d2 H2. inversion H2; subst; [done | contradiction].
  - intros s d t task d' Hd Hs Ht _ IH s' d2 H2. inversion H2; subst; [contradiction|].
    match goal with H : reg !! t = Some ?task' |- _ =>
      rewrite Ht in H; injection H as <- end.
    f_equal. eauto.
  - intros s d s' d2 H2. by inversion H2.
  - intros s d t ts d1 d2 _ IH1 _ IH2 s' d3 H3. inversion H3; subst.
    match goal with H : visits reg s' d t ?x |- _ => apply IH1 in H; subst x end.
    eauto.
Qed.

(** ** Tasks emitted earlier only filter the traversal *)

Lemma elem_of_merge base l x : x ∈ merge base l ↔ x ∈ base ∨ x ∈ l.
Proof.
  unfold merge. rewrite elem_of_app, list_elem_of_filter.
  destruct (decide (x ∈ base)); tauto.
Qed.

Lemma merge_nil_r base : merge base [] = base.
Proof. unfold merge. by rewrite filter_nil, app_nil_r. Qed.

Lemma merge_snoc base l t : t ∉ base → merge base (l ++ [t]) = merge base l ++ [t].
Proof.
  intros Ht. unfold merge. rewrite filter_app, filter_singleton_True by done.
  by rewrite app_assoc.
Qed.

Lemma merge_absorb base l new :
  (∀ x, x ∈ new → x ∈ base) → merge base (l ++ new) = merge base l.
Proof.
  intros Hnew. unfold merge. rewrite filter_app.
  assert (filter (λ x, x ∉ base) new = []) as ->; [|by rewrite app_nil_r].
  induction new as [|x new IH]; [done|].
  rewrite filter_cons_False by (intros Hx; apply Hx, Hnew; by left).
  apply IH. intros y Hy. apply Hnew. by right.
Qed.

Lemma visits_frame :
  (∀ s d t d', visits reg s d t d' →
     ∀ base, closed reg base → visits reg s (merge base d) t (merge base d')) ∧
  (∀ s d ts d', visits_each reg s d ts d' →
     ∀ base, closed reg base → visits_each reg s (merge base d) ts (merge base d')).
Proof.
  apply visits_mutind.
  - intros s d t Hin base _. constructor. apply elem_of_merge. by right.
  - intros s d t task d' Hd Hs Ht Hpre IH base Hbase.
    destruct (decide (t ∈ base)) as [Hin|Hnin].
    + destruct (proj2 visits_extends _ _ _ _ Hpre) as (new & -> & Hnew).
      rewrite <- app_assoc, merge_absorb.
      { constructor. apply elem_of_merge. by left. }
      intros x [Hx|Hx%list_elem_of_singleton]%elem_of_app; [|by subst].
      destruct (Hnew x Hx) as (_ & p & Hp & Hreach).
      apply (closed_reaches base t); [done..|].
      eapply reaches_prereq; [|exact Hreach]. by exists task.
    + rewrite merge_snoc by done. econstructor; [|done|exact Ht|by apply IH].
      intros [?|?]%elem_of_merge; contradiction.
  - intros s d base _. constructor.
  - intros s d t ts d1 d2 _ IH1 _ IH2 base Hbase. econstructor; eauto.
Qed.

Lemma visits_each_merge s d0 ts d :
  visits_each reg s d0 ts d → ordered reg d0 →
  (∀ p, p ∈ ts → ∃ l, resolve reg p = Some (Resolved l)) →
  ∃ orders,
    Forall2 (λ p l, resolve reg p = Some (Resolved l)) ts orders ∧
    d = foldl merge d0 orders.
Proof.
  revert d0. induction ts as [|t ts IH]; intros d0 Hv Hord Hres.
  - inversion Hv; subst. exists []. split; [constructor | done].
  - inversion Hv as [|? ? ? ? d1 ? Hv1 Hv2]; subst.
    destruct (Hres t) as [l Hl]; [by left|].
    pose proof (visit_sound _ _ _ _ _ Hl) as Hvl.
    apply (proj1 visits_frame) with (base := d0) in Hvl; [|by apply ordered_closed].
    rewrite merge_nil_r in Hvl.
    pose proof (proj1 visits_deterministic _ _ _ _ Hv1 _ _ Hvl) as ->.
    destruct (IH (merge d0 l)) as (orders & Hall & ->); [done| | |].
    + by apply (proj1 visits_ordered _ _ _ _ Hv1).
    + intros p Hp. apply Hres. by right.
    + exists (l :: orders). split; [by constructor | done].
Qed.

Lemma ordered_nil : ordered reg [].
Proof. intros j x y Hj. by rewrite lookup_nil in Hj. Qed.

Lemma declared_from_prereq t p :
  declared_from reg t → prereq reg t p → declared_from reg p.
Proof. intros Hdecl Htp x Hx. apply Hdecl. by eapply reaches_prereq. Qed.

(** Whatever [resolve] returns lists no task twice. *)
Lemma resolve_NoDup t order : resolve reg t = Some (Resolved order) → NoDup order.
Proof.
  intros Hres. apply visit_sound in Hres.
  apply (proj1 visits_NoDup _ _ _ _ Hres). constructor.
Qed.

Lemma resolve_ordered t order :
  resolve reg t = Some (Resolved order) → ordered reg order.
Proof.
  intros Hres. apply visit_sound in Hres.
  apply (proj1 visits_ordered _ _ _ _ Hres), ordered_nil.
Qed.

Lemma resolve_elem_of t order x :
  resolve reg t = Some (Resolved order) → x ∈ order ↔ reaches reg t x.
Proof.
  intros Hres. pose proof (resolve_ordered _ _ Hres) as Hord.
  apply visit_sound in Hres. split.
  - destruct (proj1 visits_extends _ _ _ _ Hres) as (new & -> & Hnew).
    rewrite app_nil_l. intros Hx. by apply Hnew.
  - apply closed_reaches; [by apply ordered_closed|].
    apply (proj1 visits_emits _ _ _ _ Hres).
Qed.

(** C2. On an acyclic registry in which the requested task [t] and all tasks
    reachable from it are declared, [resolve] returns an order that lists
    [t] and each of its transitive prerequisites exactly once, puts every
    task strictly after everything it depends on, and expands prerequisites
    depth first in declared order: the order is the orders of the
    prerequisites of [t], merged from left to right so that each keeps only
    the tasks not emitted yet, followed by [t]. *)
Theorem resolve_acyclic t :
  acyclic reg → declared_from reg t →
  ∃ order,
    resolve reg t = Some (Resolved order) ∧
    NoDup order ∧
    (∀ x, x ∈ order ↔ reaches reg t x) ∧
    (∀ x y, x ∈ order → depends reg x y → before order y x) ∧
    (∀ task, reg !! t = Some task →
       ∃ orders,
         Forall2 (λ p l, resolve reg p = Some (Resolved l)) (pre task) orders ∧
         order = foldl merge [] orders ++ [t]).
Proof.
  intros Hacyc Hdecl.
  destruct (resolve_succeeds t Hacyc Hdecl) as [order Hres].
  exists order. split; [done|]. split; [by eapply resolve_NoDup|].
  split; [intros x; by apply resolve_elem_of|]. split.
  - intros x y [j Hj]%list_elem_of_lookup Hxy.
    destruct (ordered_depends order j x y) as (i & Hi & Hy); [by eapply resolve_ordered|done..|].
    by exists i, j.
  - intros task Ht. pose proof (visit_sound _ _ _ _ _ Hres) as Hv.
    inversion Hv as [? ? ? Hin|? ? ? task' d' _ _ Ht' Heach]; subst.
    { by apply elem_of_nil in Hin. }
    rewrite Ht in Ht'. injection Ht' as <-.
    destruct (visits_each_merge _ _ _ _ Heach ordered_nil) as (orders & Hall & ->).
    + intros p Hp. apply resolve_succeeds; [done|].
      eapply declared_from_prereq; [done|]. by exists task.
    + by exists orders.
Qed.

(** ** Registries that are acyclic by construction *)

Lemma declared_in_order_depends names x y :
  declared_in_order reg names → depends reg x y →
  (position names y < position names x)%nat.
Proof.
  intros Hall Hdep. induction Hdep as [x y Hxy|x z y Hxz _ IH].
  - destruct Hxy as (task & Hx & Hy).
    pose proof (map_Forall_lookup_1 _ _ _ _ Hall Hx) as Hpre. simpl in Hpre.
    rewrite Forall_forall in Hpre. by apply Hpre.
  - destruct Hxz as (task & Hx & Hz).
    pose proof (map_Forall_lookup_1 _ _ _ _ Hall Hx) as Hpre. simpl in Hpre.
    rewrite Forall_forall in Hpre. specialize (Hpre z Hz). lia.
Qed.

Lemma declared_in_order_acyclic names : declared_in_order reg names → acyclic reg.
Proof.
  intros Hall t Hdep.
  pose proof (declared_in_order_depends names t t Hall Hdep). lia.
Qed.

Lemma complete_declared_from t :
  complete reg → is_Some (reg !! t) → declared_from reg t.
Proof.
  intros Hall Ht x [->|Hdep]; [done|]. clear Ht.
  induction Hdep as [t x (task & Ht & Hx)|t z x _ _ IH]; [|done].
  pose proof (map_Forall_lookup_1 _ _ _ _ Hall Ht) as Hpre. simpl in Hpre.
  rewrite Forall_forall in Hpre. by apply Hpre.
Qed.

End ResolverFacts.

(** * The executor *)

Section ExecutorFacts.

Variable reg : gmap string Task.

Lemma execute_ran_prefix order st : (execute reg order st).1 `prefix_of` order.
Proof.
  revert st. induction order as [|t rest IH]; intros st; simpl; [done|].
  destruct (reg !! t) as [task|]; [|apply prefix_nil].
  destruct (call (body task) st) as [[[]| |e] st1]; simpl.
  - specialize (IH st1). destruct (execute reg rest st1) as [ran out]. simpl in *.
    by apply prefix_cons.
  - apply prefix_cons, prefix_nil.
  - apply prefix_cons, prefix_nil.
Qed.

(** How a run ends: with every task run, or at the first task that is not
    declared or whose body does not complete. *)
Lemma execute_inv order st ran out st' :
  execute reg order st = (ran, (out, st')) →
  (ran = order ∧ out = Normal tt) ∨
  ∃ l1 t l2 st1,
    order = l1 ++ t :: l2 ∧ execute reg l1 st = (l1, (Normal tt, st1)) ∧
    ((reg !! t = None ∧ ran = l1 ∧ out = Raised UnknownTask ∧ st' = st1) ∨
     (∃ task, reg !! t = Some task ∧ ran = l1 ++ [t] ∧
        call (body task) st1 = (out, st') ∧ out ≠ Normal tt)).
Proof.
  revert st ran. induction order as [|t rest IH]; intros st ran Hex; simpl in Hex.
  - injection Hex as <- <- <-. by left.
  - destruct (reg !! t) as [task|] eqn:Et.
    + destruct (call (body task) st) as [[[]| |e] st1] eqn:Ec.
      * destruct (execute reg rest st1) as [ran1 out1] eqn:Er.
        injection Hex as <- ->. destruct (IH _ _ Er) as [[-> ->]|Hstop]; [by left|].
        destruct Hstop as (l1 & u & l2 & st2 & -> & Hl1 & Hu). right.
        exists (t :: l1), u, l2, st2. split; [done|]. split.
        { simpl. by rewrite Et, Ec, Hl1. }
        destruct Hu as [(? & -> & ? & ?)|(task' & ? & -> & ? & ?)]; [by left|].
        right. by exists task'.
      * injection Hex as <- <- <-. right. exists [], t, rest, st.
        split; [done|]. split; [done|]. right. by exists task.
      * injection Hex as <- <- <-. right. exists [], t, rest, st.
        split; [done|]. split; [done|]. right. by exists task.
    + injection Hex as <- <- <-. right. exists [], t, rest, st.
      split; [done|]. split; [done|]. by left.
Qed.

Lemma invoke_ran_prefix t order st :
  resolve reg t = Some (Resolved order) → (invoke reg t st).1 `prefix_of` order.
Proof. intros Hres. unfold invoke. rewrite Hres. apply execute_ran_prefix. Qed.

Lemma prefix_NoDup (l1 l2 : list string) : l1 `prefix_of` l2 → NoDup l2 → NoDup l1.
Proof. intros [k ->] Hnd. by apply NoDup_app in Hnd as [? _]. Qed.

(** A body that executes [return] has run: the run goes on with the next
    task. *)
Lemma execute_returned x task rest st st1 :
  reg !! x = Some task → body task st = (Returned, st1) →
  execute reg (x :: rest) st =
    (x :: (execute reg rest st1).1, (execute reg rest st1).2).
Proof.
  intros Hx Hb. simpl. rewrite Hx. unfold call. rewrite Hb.
  by destruct (execute reg rest st1).
Qed.

End ExecutorFacts.

(** ** Resolution looks at prerequisites only *)

Lemma visit_each_ext v1 v2 d ts :
  (∀ d0 t, v1 d0 t = v2 d0 t) → visit_each v1 d ts = visit_each v2 d ts.
Proof.
  intros Hv. revert d. induction ts as [|t ts IH]; intros d; simpl; [done|].
  rewrite Hv. destruct (v2 d t) as [[d1|e]|]; auto.
Qed.

Lemma visit_pre_ext reg reg' fuel stack d t :
  (∀ x, pre <$> reg !! x = pre <$> reg' !! x) →
  visit reg fuel stack d t = visit reg' fuel stack d t.
Proof.
  intros Hpre. revert stack d t. induction fuel as [|fuel IH]; intros stack d t; [done|].
  simpl. destruct (decide (t ∈ d)); [done|]. destruct (decide (t ∈ stack)); [done|].
  specialize (Hpre t).
  destruct (reg !! t) as [task|], (reg' !! t) as [task'|]; simpl in Hpre; try done.
  injection Hpre as ->.
  by rewrite (visit_each_ext _ (visit reg' fuel (t :: stack))).
Qed.

Lemma resolve_body_irrelevant reg x task b t :
  reg !! x = Some task →
  resolve (<[x := mkTask (pre task) b]> reg) t = resolve reg t.
Proof.
  intros Hx. unfold resolve. rewrite map_size_insert_Some by done.
  apply visit_pre_ext. intros y. destruct (decide (x = y)) as [<-|Hne].
  - by rewrite lookup_insert_eq, Hx.
  - by rewrite lookup_insert_ne.
Qed.

(** C6. Deduplication is decided by the resolver, which never looks at a
    body: the resolved order lists no task twice, the tasks an invocation
    runs are an initial part of that order (so none runs twice), a task whose
    body executes [return] before doing any work is recorded as run and the
    run goes on, and replacing the body of any task, by an empty one or by
    one that returns early, leaves the order unchanged. *)
Theorem dedup_ignores_body reg t order :
  resolve reg t = Some (Resolved order) →
  NoDup order ∧
  (∀ st, NoDup (invoke reg t st).1 ∧ (invoke reg t st).1 `prefix_of` order) ∧
  (∀ x task rest st st1,
     reg !! x = Some task → body task st = (Returned, st1) →
     execute reg (x :: rest) st =
       (x :: (execute reg rest st1).1, (execute reg rest st1).2)) ∧
  (∀ x task b,
     reg !! x = Some task →
     resolve (<[x := mkTask (pre task) b]> reg) t = Some (Resolved order)).
Proof.
  intros Hres. pose proof (resolve_NoDup _ _ _ Hres) as Hnd.
  split; [done|]. split; [|split].
  - intros st. pose proof (invoke_ran_prefix reg t order st Hres) as Hpre.
    split; [by eapply prefix_NoDup | done].
  - intros. by eapply execute_returned.
  - intros x task b Hx. by rewrite resolve_body_irrelevant.
Qed.

(** In the diamond, ["tests"] returns at once, is reachable along several
    paths, and runs once. *)
Lemma dedup_ignores_body_diamond :
  NoDup ["tests"; "left"; "right"; "top"] ∧
  (∀ st, NoDup (invoke diamond "top" st).1 ∧
         (invoke diamond "top" st).1 `prefix_of` ["tests"; "left"; "right"; "top"]) ∧
  (∀ x task rest st st1,
     diamond !! x = Some task → body task st = (Returned, st1) →
     execute diamond (x :: rest) st =
       (x :: (execute diamond rest st1).1, (execute diamond rest st1).2)) ∧
  (∀ x task b,
     diamond !! x = Some task →
     resolve (<[x := mkTask (pre task) b]> diamond) "top"
       = Some (Resolved ["tests"; "left"; "right"; "top"])).
Proof. apply (dedup_ignores_body diamond "top"). vm_compute. reflexivity. Defined.

Example invoke_diamond :
  (invoke diamond "top" initial).1 = ["tests"; "left"; "right"; "top"] ∧
  lines_of (log (invoke diamond "top" initial).2.2) = [].
Proof. split; vm_compute; reflexivity. Qed.

(** * The registry of [tasks.py] *)

Lemma diamond_acyclic : acyclic diamond.
Proof.
  apply (declared_in_order_acyclic _ ["tests"; "left"; "right"; "top"]).
  compute_done.
Qed.

Lemma diamond_declared : declared_from diamond "top".
Proof. apply complete_declared_from; [compute_done | by eexists]. Qed.

(** The order of the diamond: ["tests"] is emitted once, by the first path
    that reaches it. *)
Lemma resolve_acyclic_diamond :
  ∃ order,
    resolve diamond "top" = Some (Resolved order) ∧
    NoDup order ∧
    (∀ x, x ∈ order ↔ reaches diamond "top" x) ∧
    (∀ x y, x ∈ order → depends diamond x y → before order y x) ∧
    (∀ task, diamond !! "top" = Some task →
       ∃ orders,
         Forall2 (λ p l, resolve diamond p = Some (Resolved l)) (pre task) orders ∧
         order = foldl merge [] orders ++ ["top"]).
Proof. exact (resolve_acyclic diamond "top" diamond_acyclic diamond_declared). Defined.

Example resolve_diamond :
  resolve diamond "top" = Some (Resolved ["tests"; "left"; "right"; "top"]).
Proof. reflexivity. Qed.

Section RegistryFacts.

Variable shell : list Event → string → Context → ExecutionResult.
Variable example_files : list string.
Variable read_file : string → option string.
Variable re_search : string → string → option string.

Abbreviation tasks_py := (registry shell example_files read_file re_search).

Lemma registry_declared_in_order : declared_in_order tasks_py declaration_order.
Proof. compute_done. Qed.

Lemma registry_complete : complete tasks_py.
Proof. compute_done. Qed.

Lemma registry_dom : dom tasks_py = list_to_set declaration_order.
Proof. compute_done. Qed.

(** C3. The registry declares exactly the thirteen tasks of [tasks.py]
    (clean, formatting, tests, quality, examples, docs, todo, preflight,
    build, virtualise, tag, release, sha256), and the prerequisite relation
    over them has no cycle: no task depends on itself, directly or
    transitively. *)
Theorem registry_acyclic :
  (∀ t, is_Some (tasks_py !! t) ↔ t ∈ declaration_order) ∧ acyclic tasks_py.
Proof.
  split.
  - intros t. rewrite <- elem_of_dom, registry_dom. apply elem_of_list_to_set.
  - apply (declared_in_order_acyclic _ declaration_order), registry_declared_in_order.
Qed.

(** ** Requesting [build] *)

Lemma resolve_build : resolve tasks_py "build" = Some (Resolved build_order).
Proof. reflexivity. Qed.

(** C1, as the code has it.  Requesting [build] resolves to docs, todo,
    formatting, tests, quality, examples, preflight, build: each task once,
    every task after all it depends on, siblings from left to right.  The
    tasks an invocation runs are an initial part of that order.  [preflight]
    is a task of the order in its own right, placed after its four
    prerequisites; its body prints a message and spawns no command. *)
Theorem build_execution_order :
  resolve tasks_py "build" = Some (Resolved build_order) ∧
  NoDup build_order ∧
  (∀ x y, x ∈ build_order → depends tasks_py x y → before build_order y x) ∧
  (∀ st, (invoke tasks_py "build" st).1 `prefix_of` build_order) ∧
  pre <$> tasks_py !! "preflight" = Some ["formatting"; "tests"; "quality"; "examples"] ∧
  body <$> tasks_py !! "preflight" = Some preflight ∧
  (∀ st, ∃ text,
     preflight st = (Normal tt, mkState (context st) (log st ++ [Message text]))).
Proof.
  pose proof resolve_build as Hres.
  split; [exact Hres|]. split; [exact (resolve_NoDup _ _ _ Hres)|].
  split; [|split; [|split; [|split]]].
  - intros x y [j Hj]%list_elem_of_lookup Hxy.
    destruct (ordered_depends tasks_py build_order j x y) as (i & Hi & Hy).
    + exact (resolve_ordered _ _ _ Hres).
    + exact Hxy.
    + exact Hj.
    + exists i, j. auto.
  - intros st. exact (invoke_ran_prefix _ _ _ st Hres).
  - vm_compute. reflexivity.
  - vm_compute. reflexivity.
  - intros st. eexists. unfold preflight, message_box. reflexivity.
Qed.

End RegistryFacts.

(** With every command succeeding and no example files, a request for
    [build] runs the eight tasks of the order, [preflight] among them. *)
Example invoke_build_quiet :
  (invoke (registry quiet_shell [] (λ _, None) (λ _ _, None)) "build" initial).1
    = build_order ∧
  (invoke (registry quiet_shell [] (λ _, None) (λ _ _, None)) "build" initial).2.1
    = Normal tt.
Proof. split; vm_compute; reflexivity. Qed.

(** C1, as the claim states it, fails: the order of a request for [build]
    is not the seven tasks without [preflight], neither as resolved nor as
    run. *)
Lemma build_order_without_preflight_refuted :
  resolve (registry quiet_shell [] (λ _, None) (λ _ _, None)) "build"
    ≠ Some (Resolved ["docs"; "todo"; "formatting"; "tests"; "quality"; "examples"; "build"]) ∧
  (invoke (registry quiet_shell [] (λ _, None) (λ _ _, None)) "build" initial).1
    ≠ ["docs"; "todo"; "formatting"; "tests"; "quality"; "examples"; "build"].
Proof. split; intros H; vm_compute in H; discriminate H. Qed.

(** * The task bodies *)

Section BodyFacts.

Variable shell : list Event → string → Context → ExecutionResult.

Lemma lines_of_app l1 l2 : lines_of (l1 ++ l2) = lines_of l1 ++ lines_of l2.
Proof. apply omap_app. Qed.

Lemma issues_ret {A} (a : A) : issues shell (mret a) [].
Proof.
  intros st. exists []. simpl. rewrite app_nil_r. repeat split; auto.
Qed.

Lemma issues_return {A} (k : unit → Body A) : issues shell (return_ ≫= k) [].
Proof.
  intros st. exists []. simpl. rewrite app_nil_r. repeat split; auto.
Qed.

Lemma issues_message {A} text (k : unit → Body A) cmds :
  issues shell (k tt) cmds → issues shell (message_box text ≫= k) cmds.
Proof.
  intros Hk st.
  destruct (Hk (mkState (context st) (log st ++ [Message text])))
    as (issued & Hlog & Hpre & Hall & Hok).
  exists issued. simpl in Hlog. rewrite lines_of_app, app_nil_r in Hlog.
  repeat split; auto.
Qed.

Lemma issues_run {A} hide line (k : ExecutionResult → Body A) cmds :
  (∀ r, issues shell (k r) cmds) → issues shell (run shell hide line ≫= k) (line :: cmds).
Proof.
  intros Hk st. unfold mbind, body_bind, run.
  destruct (decide (exited (shell (log st) line (context st)) = 0)) as [Hz|Hnz].
  - destruct (Hk (shell (log st) line (context st))
               (mkState (context st)
                  (log st ++ [Spawned line (context st) hide
                                (shell (log st) line (context st))])))
      as (issued & Hlog & Hpre & Hall & Hok).
    exists (line :: issued). simpl in Hlog. rewrite lines_of_app in Hlog.
    simpl in Hlog. rewrite <- app_assoc in Hlog. simpl in Hlog.
    split; [exact Hlog|]. split; [by apply prefix_cons|].
    split; [|exact Hok]. intros Hc. f_equal. auto.
  - exists [line]. simpl. rewrite lines_of_app. simpl.
    split; [done|]. split; [apply prefix_cons, prefix_nil|].
    split; [done|]. intros Hall. destruct Hnz. apply Hall.
Qed.

Lemma issues_cd {A} path (m : Body A) cmds : issues shell m cmds → issues shell (cd path m) cmds.
Proof.
  intros Hm st. specialize (Hm (with_context (push_cwd path) st)).
  unfold cd. destruct (m (with_context (push_cwd path) st)) as [out st']. exact Hm.
Qed.

Lemma issues_prefix {A} command (m : Body A) cmds :
  issues shell m cmds → issues shell (prefix command m) cmds.
Proof.
  intros Hm st. specialize (Hm (with_context (push_prefix command) st)).
  unfold prefix. destruct (m (with_context (push_prefix command) st)) as [out st'].
  exact Hm.
Qed.

Lemma issues_for_each_run (f : string → string) xs :
  issues shell (for_each xs (λ x, run shell false (f x) ;; mret tt)) (map f xs).
Proof.
  induction xs as [|x xs IH]; simpl; [apply issues_ret|].
  intros st. unfold mbind at 1. unfold body_bind at 1.
  pose proof (issues_run false (f x)
                (λ _, for_each xs (λ x, run shell false (f x) ;; mret tt))
                (map f xs) (λ _, IH) st) as Hrun.
  unfold mbind, body_bind in Hrun |- *. simpl in Hrun |- *.
  unfold run in Hrun |- *.
  destruct (decide (exited (shell (log st) (f x) (context st)) = 0)); exact Hrun.
Qed.

(** What [issues] says about one run. *)
Lemma issues_run_of {A} (m : Body A) cmds st out st' :
  issues shell m cmds → m st = (out, st') →
  ∃ issued,
    lines_of (log st') = lines_of (log st) ++ issued ∧
    issued `prefix_of` cmds ∧
    (completes out → issued = cmds) ∧
    ((∀ h l c, exited (shell h l c) = 0) → completes out).
Proof. intros Hm Heq. specialize (Hm st). by rewrite Heq in Hm. Qed.

(** ** [tests] *)

(** C8. Whatever the state and the [nose] option, the body of [tests]
    executes [return] first: the state, and with it the log of spawned
    commands, is left as it was, so neither the nosetests nor the pytest
    command is ever spawned, and the call of the task completes. *)
Theorem tests_is_noop nose st :
  tests shell nose st = (Returned, st) ∧
  call (tests shell nose) st = (Normal tt, st) ∧
  lines_of (log (tests shell nose st).2) = lines_of (log st).
Proof. repeat split. Qed.

(** ** [virtualise] *)

Lemma bind_state_ext {A B} (m : Body A) (k1 k2 : A → Body B) st :
  (∀ a s, (k1 a s).2 = (k2 a s).2) → ((m ≫= k1) st).2 = ((m ≫= k2) st).2.
Proof.
  intros Hk. unfold mbind, body_bind. destruct (m st) as [[a| |e] s]; auto.
Qed.

Lemma cd_state_ext {A} path (m1 m2 : Body A) st :
  (∀ s, (m1 s).2 = (m2 s).2) → (cd path m1 st).2 = (cd path m2 st).2.
Proof.
  intros Hm. unfold cd. specialize (Hm (with_context (push_cwd path) st)).
  destruct (m1 _) as [o1 s1], (m2 _) as [o2 s2]. simpl in *. by subst.
Qed.

Lemma virtualise_issues tests : issues shell (virtualise shell tests) virtualise_commands.
Proof.
  unfold virtualise, virtualise_commands.
  apply issues_cd. do 2 (apply issues_run; intros _).
  apply issues_cd. do 6 (apply issues_run; intros _).
  destruct tests; [apply issues_return | apply issues_ret].
Qed.

(** C9. Whatever the [tests] option, a run of [virtualise] spawns an initial
    part of: the tarball extraction, the virtualenv creation, [pwd] and the
    five pip installs, in this order, and nothing else; all eight when the
    body ends without raising.  The nosetests binary is not among them: with
    the option set the body returns before that call, with the option unset
    the call is skipped.  The option changes neither the commands spawned nor
    the final state. *)
Theorem virtualise_never_runs_nosetests tests st out st' :
  virtualise shell tests st = (out, st') →
  (∃ issued,
     lines_of (log st') = lines_of (log st) ++ issued ∧
     issued `prefix_of` virtualise_commands ∧
     (nosetests_binary ∉ issued) ∧
     (completes out → issued = virtualise_commands) ∧
     ((∀ h l c, exited (shell h l c) = 0) → completes out)) ∧
  (virtualise shell (negb tests) st).2 = st'.
Proof.
  intros Heq. split.
  - destruct (issues_run_of _ _ _ _ _ (virtualise_issues tests) Heq)
      as (issued & Hlog & Hpre & Hall & Hok).
    exists issued. repeat split; try done.
    intros Hin. destruct Hpre as [rest Hrest].
    assert (nosetests_binary ∈ virtualise_commands) as Habs.
    { rewrite Hrest. apply elem_of_app. by left. }
    revert Habs. clear. unfold virtualise_commands, nosetests_binary.
    rewrite !elem_of_cons, elem_of_nil. intros H. repeat destruct H as [H|H]; done.
  - replace st' with (virtualise shell tests st).2 by (by rewrite Heq).
    unfold virtualise.
    apply cd_state_ext; intros ?. do 2 (apply bind_state_ext; intros _ ?).
    apply cd_state_ext; intros ?. do 6 (apply bind_state_ext; intros _ ?).
    destruct tests; reflexivity.
Qed.

(** ** [clean] *)

Lemma clean_issues docs bytecode :
  issues shell (clean shell docs bytecode) (clean_commands docs bytecode).
Proof.
  unfold clean. apply issues_message.
  destruct docs, bytecode; exact (issues_for_each_run (λ p, "rm -rf " +:+ p) _).
Qed.

(** C10. Whatever its options, a run of [clean] spawns an initial part of:
    [rm -rf] of build, *.egg-info and dist, then of docs/_build and
    docs/generated exactly when [docs] is set, then of **/*.pyc exactly when
    [bytecode] is set, in this order, one command per pattern and nothing
    else; all of them when the body ends without raising, which it does
    whenever no command fails. *)
Theorem clean_commands_issued docs bytecode st out st' :
  clean shell docs bytecode st = (out, st') →
  ∃ issued,
    lines_of (log st') = lines_of (log st) ++ issued ∧
    issued `prefix_of` clean_commands docs bytecode ∧
    (completes out → issued = clean_commands docs bytecode) ∧
    ((∀ h l c, exited (shell h l c) = 0) → completes out).
Proof. intros Heq. exact (issues_run_of _ _ _ _ _ (clean_issues docs bytecode) Heq). Qed.

End BodyFacts.

(** * Scopes and failures *)

Section Discipline.

Variable shell : list Event → string → Context → ExecutionResult.
Variable read_file : string → option string.
Variable re_search : string → string → option string.

(** ** Scoped bodies *)

Lemma scoped_ret {A} (a : A) : scoped (mret a).
Proof. by intros st. Qed.

Lemma scoped_bind {A B} (m : Body A) (k : A → Body B) :
  scoped m → (∀ a, scoped (k a)) → scoped (m ≫= k).
Proof.
  intros Hm Hk st. unfold mbind, body_bind. specialize (Hm st).
  destruct (m st) as [[a| |e] s]; simpl in *; [|done..].
  by rewrite Hk.
Qed.

Lemma scoped_return : scoped return_.
Proof. by intros st. Qed.

Lemma scoped_raise {A} e : scoped (raise (A := A) e).
Proof. by intros st. Qed.

Lemma scoped_assert cond msg : scoped (assert_ cond msg).
Proof. by destruct cond. Qed.

Lemma scoped_message text : scoped (message_box text).
Proof. by intros st. Qed.

Lemma scoped_run hide line : scoped (run shell hide line).
Proof. intros st. unfold run. by destruct (decide _). Qed.

Lemma scoped_cd {A} path (m : Body A) : scoped m → scoped (cd path m).
Proof.
  intros Hm st. unfold cd. specialize (Hm (with_context (push_cwd path) st)).
  destruct (m _) as [out s]. simpl in *. rewrite Hm. by destruct st as [[] ?].
Qed.

Lemma scoped_prefix {A} command (m : Body A) : scoped m → scoped (prefix command m).
Proof.
  intros Hm st. unfold prefix. specialize (Hm (with_context (push_prefix command) st)).
  destruct (m _) as [out s]. simpl in *. rewrite Hm. by destruct st as [[] ?].
Qed.

Lemma scoped_if {A} (b : bool) (m1 m2 : Body A) :
  scoped m1 → scoped m2 → scoped (if b then m1 else m2).
Proof. by destruct b. Qed.

Lemma scoped_for_each {A} (xs : list A) (f : A → Body unit) :
  (∀ x, scoped (f x)) → scoped (for_each xs f).
Proof.
  intros Hf. induction xs as [|x xs IH]; simpl; [apply scoped_ret|].
  apply scoped_bind; auto.
Qed.

Lemma scoped_for_fold {A B} (xs : list A) (acc : B) (f : B → A → Body B) :
  (∀ b x, scoped (f b x)) → scoped (for_fold xs acc f).
Proof.
  intros Hf. revert acc. induction xs as [|x xs IH]; intros acc; simpl;
    [apply scoped_ret|].
  apply scoped_bind; auto.
Qed.

Lemma scoped_call m : scoped m → scoped (call m).
Proof.
  intros Hm st. unfold call. specialize (Hm st). by destruct (m st) as [[[]| |e] s].
Qed.

Lemma scoped_open_read path : scoped (open_read read_file path).
Proof. intros st. unfold open_read. by destruct (read_file path). Qed.

Lemma scoped_search_group1 pattern text : scoped (search_group1 re_search pattern text).
Proof. intros st. unfold search_group1. by destruct (re_search pattern text). Qed.

Lemma scoped_item {A} (xs : list A) i : scoped (item xs i).
Proof. intros st. unfold item. by destruct (xs !! i). Qed.

Lemma scoped_add_remote_tag tags remote_tag : scoped (add_remote_tag tags remote_tag).
Proof.
  unfold add_remote_tag. apply scoped_bind; [apply scoped_item|].
  intros name. apply scoped_ret.
Qed.

End Discipline.

#[global] Hint Resolve scoped_ret scoped_return scoped_raise scoped_assert
  scoped_message scoped_run scoped_cd scoped_prefix scoped_if scoped_for_each
  scoped_for_fold scoped_call scoped_open_read scoped_search_group1 scoped_item
  scoped_add_remote_tag : scoped.
#[global] Hint Extern 2 (scoped (_ ≫= _)) => apply scoped_bind; [|intros ?] : scoped.

Section ScopedTasks.

Variable shell : list Event → string → Context → ExecutionResult.
Variable example_files : list string.
Variable read_file : string → option string.
Variable re_search : string → string → option string.

(** C5. A scoped acquisition of a working directory, or of an overlay
    entry, restores the context it started from on exit from its body,
    however the body ends: falling through, returning or raising.  The body
    itself runs with the directory (the entry) pushed, and is any body that
    changes the context through scoped acquisitions only. *)
Theorem scoped_acquisition_restores {A} (path : string) (m : Body A) (st : State) :
  scoped m →
  (∀ out st', cd path m st = (out, st') →
     context st' = context st ∧
     ∃ s, m (with_context (push_cwd path) st) = (out, s) ∧ log st' = log s) ∧
  (∀ out st', prefix path m st = (out, st') →
     context st' = context st ∧
     ∃ s, m (with_context (push_prefix path) st) = (out, s) ∧ log st' = log s).
Proof.
  intros Hm. split; intros out st' Heq.
  - split.
    + pose proof (scoped_cd path m Hm st) as Hc. by rewrite Heq in Hc.
    + unfold cd in Heq. destruct (m _) as [o s]. injection Heq as <- <-. by exists s.
  - split.
    + pose proof (scoped_prefix path m Hm st) as Hc. by rewrite Heq in Hc.
    + unfold prefix in Heq. destruct (m _) as [o s]. injection Heq as <- <-. by exists s.
Qed.

(** Every task body of [tasks.py] leaves the context as it found it. *)
Lemma tasks_scoped t task :
  registry shell example_files read_file re_search !! t = Some task →
  scoped (body task).
Proof.
  intros Ht. each_task Ht; auto 20 with scoped.
Qed.

End ScopedTasks.

(** A run of scoped bodies hands every task the context the invocation
    started with, also after a body failed inside a scope. *)
Lemma execute_scoped reg order st :
  (∀ t task, reg !! t = Some task → scoped (body task)) →
  context (execute reg order st).2.2 = context st.
Proof.
  intros Hreg. revert st. induction order as [|t rest IH]; intros st; simpl; [done|].
  destruct (reg !! t) as [task|] eqn:Et; [|done].
  pose proof (scoped_call _ (Hreg t task Et) st) as Hc.
  destruct (call (body task) st) as [[[]| |e] s]; simpl in *; [|done..].
  specialize (IH s). destruct (execute reg rest s) as [ran [out s']]. simpl in *.
  by rewrite IH.
Qed.

(** ** Bodies that stop at a failed command *)

Section FailFast.

Variable shell : list Event → string → Context → ExecutionResult.
Variable read_file : string → option string.
Variable re_search : string → string → option string.

(** A body that logs nothing is fail-fast. *)
Lemma failfast_silent {A} (m : Body A) : (∀ st, log (m st).2 = log st) → failfast m.
Proof.
  intros Hm st. exists []. rewrite app_nil_r. split; [apply Hm | left; constructor].
Qed.

Lemma failfast_ret {A} (a : A) : failfast (mret a).
Proof. by apply failfast_silent. Qed.

Lemma failfast_return : failfast return_.
Proof. by apply failfast_silent. Qed.

Lemma failfast_raise {A} e : failfast (raise (A := A) e).
Proof. by apply failfast_silent. Qed.

Lemma failfast_assert cond msg : failfast (assert_ cond msg).
Proof. apply failfast_silent. by destruct cond. Qed.

Lemma failfast_open_read path : failfast (open_read read_file path).
Proof. apply failfast_silent. intros st. unfold open_read. by destruct (read_file path). Qed.

Lemma failfast_search_group1 pattern text :
  failfast (search_group1 re_search pattern text).
Proof.
  apply failfast_silent. intros st. unfold search_group1.
  by destruct (re_search pattern text).
Qed.

Lemma failfast_item {A} (xs : list A) i : failfast (item xs i).
Proof. apply failfast_silent. intros st. unfold item. by destruct (xs !! i). Qed.

Lemma failfast_add_remote_tag tags remote_tag :
  failfast (add_remote_tag tags remote_tag).
Proof.
  apply failfast_silent. intros st. unfold add_remote_tag, mbind, body_bind, item.
  by destruct (split "refs/tags/" remote_tag !! 1%nat).
Qed.

Lemma failfast_message text : failfast (message_box text).
Proof.
  intros st. exists [Message text]. split; [done|]. left.
  constructor; [|constructor]. by intros [].
Qed.

Lemma failfast_run hide line : failfast (run shell hide line).
Proof.
  intros st. unfold run.
  exists [Spawned line (context st) hide (shell (log st) line (context st))].
  destruct (decide (exited (shell (log st) line (context st)) = 0)) as [Hz|Hnz]; simpl.
  - split; [done|]. left. constructor; [|constructor]. simpl. by intros Hf.
  - split; [done|]. right. exists [], (Spawned line (context st) hide
                                         (shell (log st) line (context st))).
    split; [done|]. split; [constructor|]. by split.
Qed.

Lemma failfast_bind {A B} (m : Body A) (k : A → Body B) :
  failfast m → (∀ a, failfast (k a)) → failfast (m ≫= k).
Proof.
  intros Hm Hk st. unfold mbind, body_bind.
  destruct (Hm st) as (evs1 & Hlog1 & H1).
  destruct (m st) as [[a| |e] s] eqn:Em; simpl in *.
  2: { exists evs1. split; [exact Hlog1|].
       destruct H1 as [H1|(b1 & e1 & _ & _ & _ & [=])]. by left. }
  2: { exists evs1. split; [exact Hlog1|].
       destruct H1 as [H1|(b1 & e1 & ? & ? & ? & [= ->])]; [by left|].
       right. by exists b1, e1. }
  destruct H1 as [Hclean1|(b1 & e1 & _ & _ & _ & [=])].
  destruct (Hk a s) as (evs2 & Hlog2 & H2).
  exists (evs1 ++ evs2). split; [by rewrite Hlog2, Hlog1, app_assoc|].
  destruct H2 as [Hclean2|(b2 & e2 & -> & Hb2 & He2 & Hout)].
  - left. by apply Forall_app.
  - right. exists (evs1 ++ b2), e2. split; [by rewrite app_assoc|].
    split; [by apply Forall_app|]. by split.
Qed.

Lemma failfast_with_context {A} (f g : Context → Context) (m : Body A) :
  failfast m →
  failfast (λ st, let '(out, st') := m (with_context f st) in (out, with_context g st')).
Proof.
  intros Hm st. specialize (Hm (with_context f st)).
  destruct (m (with_context f st)) as [out s]. exact Hm.
Qed.

Lemma failfast_cd {A} path (m : Body A) : failfast m → failfast (cd path m).
Proof. apply failfast_with_context. Qed.

Lemma failfast_prefix {A} command (m : Body A) : failfast m → failfast (prefix command m).
Proof. apply failfast_with_context. Qed.

Lemma failfast_if {A} (b : bool) (m1 m2 : Body A) :
  failfast m1 → failfast m2 → failfast (if b then m1 else m2).
Proof. by destruct b. Qed.

Lemma failfast_for_each {A} (xs : list A) (f : A → Body unit) :
  (∀ x, failfast (f x)) → failfast (for_each xs f).
Proof.
  intros Hf. induction xs as [|x xs IH]; simpl; [apply failfast_ret|].
  apply failfast_bind; auto.
Qed.

Lemma failfast_for_fold {A B} (xs : list A) (acc : B) (f : B → A → Body B) :
  (∀ b x, failfast (f b x)) → failfast (for_fold xs acc f).
Proof.
  intros Hf. revert acc. induction xs as [|x xs IH]; intros acc; simpl;
    [apply failfast_ret|].
  apply failfast_bind; auto.
Qed.

Lemma failfast_call m : failfast m → failfast (call m).
Proof.
  intros Hm st. unfold call. destruct (Hm st) as (evs & Hlog & H).
  exists evs. destruct (m st) as [[[]| |e] s]; simpl in *; split; try done.
  destruct H as [H|(b & e & _ & _ & _ & [=])]. by left.
Qed.

End FailFast.

#[global] Hint Resolve failfast_ret failfast_return failfast_raise failfast_assert
  failfast_open_read failfast_search_group1 failfast_item failfast_message
  failfast_run failfast_cd failfast_prefix failfast_if failfast_for_each
  failfast_for_fold failfast_call failfast_add_remote_tag : failfast.
#[global] Hint Extern 2 (failfast (_ ≫= _)) => apply failfast_bind; [|intros ?] : failfast.

(** Every task body of [tasks.py] stops at a failed command. *)
Lemma tasks_failfast shell example_files read_file re_search t task :
  registry shell example_files read_file re_search !! t = Some task →
  failfast (body task).
Proof.
  intros Ht. each_task Ht; auto 20 with failfast.
Qed.

Section StopOnFirstFailure.

Variable reg : gmap string Task.
Hypothesis reg_failfast : ∀ t task, reg !! t = Some task → failfast (body task).

Lemma execute_failfast order : failfast (λ st, (execute reg order st).2).
Proof.
  induction order as [|t rest IH]; simpl.
  - by apply failfast_silent.
  - destruct (reg !! t) as [task|] eqn:Et; [|by apply failfast_silent].
    pose proof (failfast_call _ (reg_failfast t task Et)) as Hc.
    pose proof (failfast_bind (call (body task))
                  (λ _ st, (execute reg rest st).2) Hc (λ _, IH)) as Hb.
    intros st. specialize (Hb st). unfold mbind, body_bind in Hb.
    destruct (call (body task) st) as [[[]| |e] s]; simpl in *; [|exact Hb..].
    by destruct (execute reg rest s) as [ran out].
Qed.

(** A failed command can only be the last event of a fail-fast run. *)
Lemma failed_event_is_last (evs before_it after_it : list Event) e (out : Flow unit) :
  (Forall (λ e, ¬ failed e) evs ∨
   ∃ b e', evs = b ++ [e'] ∧ Forall (λ e, ¬ failed e) b ∧
           failed e' ∧ out = Raised (CommandFailed (exit_code e'))) →
  evs = before_it ++ e :: after_it → failed e →
  after_it = [] ∧ out = Raised (CommandFailed (exit_code e)).
Proof.
  intros [Hclean|(b & e' & -> & Hb & He' & ->)] Hevs He.
  - subst evs. apply Forall_app in Hclean as [_ Hc].
    apply Forall_cons in Hc as [Hc _]. contradiction.
  - destruct after_it as [|x after_it _] using rev_ind.
    + apply app_inj_tail in Hevs as [_ ->]. done.
    + rewrite app_comm_cons, app_assoc in Hevs.
      apply app_inj_tail in Hevs as [-> _].
      apply Forall_app in Hb as [_ Hb]. apply Forall_cons in Hb as [Hb _].
      contradiction.
Qed.

(** C4. In a run of tasks whose bodies stop at a failed command, as every
    body written with the operations of [tasks.py] does: if a command
    spawned during the run reports a non-zero status, that command is the
    last thing the run does, the run ends with that failure, and it ended
    inside the body of a task [t] of the order, with the tasks before [t]
    completed and none of the tasks after [t] entered. *)
Theorem stop_on_first_failure order st ran out st' before_it e after_it :
  execute reg order st = (ran, (out, st')) →
  log st' = log st ++ before_it ++ e :: after_it →
  failed e →
  after_it = [] ∧
  out = Raised (CommandFailed (exit_code e)) ∧
  ∃ l1 t l2 st1 task,
    order = l1 ++ t :: l2 ∧ ran = l1 ++ [t] ∧
    execute reg l1 st = (l1, (Normal tt, st1)) ∧
    reg !! t = Some task ∧
    call (body task) st1 = (out, st').
Proof.
  intros Hex Hlog He.
  destruct (execute_failfast order st) as (evs & Hevs & Hcases).
  rewrite Hex in Hevs, Hcases. simpl in Hevs, Hcases.
  rewrite Hlog in Hevs. apply app_inv_head in Hevs.
  destruct (failed_event_is_last evs before_it after_it e out Hcases) as [-> ->];
    [done..|].
  split; [done|]. split; [done|].
  destruct (execute_inv _ _ _ _ _ _ Hex) as [[_ [=]]|Hstop].
  destruct Hstop as (l1 & t & l2 & st1 & -> & Hl1 & Hend).
  destruct Hend as [(_ & _ & [=] & _)|(task & Ht & -> & Hcall & _)].
  by exists l1, t, l2, st1, task.
Qed.

End StopOnFirstFailure.

(** The chain A → B → C with a failing C: C runs and fails, B and A never
    run. *)
Example invoke_chain :
  resolve chain "A" = Some (Resolved ["C"; "B"; "A"]) ∧
  (invoke chain "A" initial).1 = ["C"] ∧
  (invoke chain "A" initial).2.1 = Raised (CommandFailed 2) ∧
  lines_of (log (invoke chain "A" initial).2.2) = ["make C"].
Proof. repeat split; vm_compute; reflexivity. Qed.

Lemma chain_failfast t task : chain !! t = Some task → failfast (body task).
Proof.
  intros Ht. each_task Ht; auto with failfast.
Qed.

Lemma stop_on_first_failure_chain :
  ([] : list Event) = [] ∧
  (Raised (CommandFailed 2) : Flow unit)
    = Raised (CommandFailed (exit_code
        (Spawned "make C" (mkContext [] []) false (mkResult 2 EmptyString)))) ∧
  ∃ l1 t l2 st1 task,
    ["C"; "B"; "A"] = l1 ++ t :: l2 ∧ ["C"] = l1 ++ [t] ∧
    execute chain l1 initial = (l1, (Normal tt, st1)) ∧
    chain !! t = Some task ∧
    call (body task) st1
      = (Raised (CommandFailed 2),
         mkState (mkContext [] [])
           [Spawned "make C" (mkContext [] []) false (mkResult 2 EmptyString)]).
Proof.
  apply (stop_on_first_failure chain chain_failfast ["C"; "B"; "A"] initial ["C"]
           (Raised (CommandFailed 2))
           (mkState (mkContext [] [])
              [Spawned "make C" (mkContext [] []) false (mkResult 2 EmptyString)])
           [] (Spawned "make C" (mkContext [] []) false (mkResult 2 EmptyString)) []).
  - vm_compute. reflexivity.
  - reflexivity.
  - simpl. lia.
Defined.

(** * [tag] *)

Section TagFacts.

Variable shell : list Event → string → Context → ExecutionResult.
Variable read_file : string → option string.
Variable re_search : string → string → option string.

Abbreviation tag_body := (tag shell read_file re_search).

Lemma bind_message {A} text (k : unit → Body A) st :
  (message_box text ≫= k) st = k tt (mkState (context st) (log st ++ [Message text])).
Proof. reflexivity. Qed.

Lemma bind_run {A} hide line (k : ExecutionResult → Body A) st :
  (run shell hide line ≫= k) st =
    if decide (exited (shell (log st) line (context st)) = 0)
    then k (shell (log st) line (context st))
           (mkState (context st)
              (log st ++ [Spawned line (context st) hide (shell (log st) line (context st))]))
    else (Raised (CommandFailed (exited (shell (log st) line (context st)))),
          mkState (context st)
            (log st ++ [Spawned line (context st) hide (shell (log st) line (context st))])).
Proof. unfold mbind, body_bind, run. by destruct (decide _). Qed.

Lemma bind_assert {A} cond msg (k : unit → Body A) st :
  (assert_ cond msg ≫= k) st = if cond then k tt st else (Raised (AssertionError msg), st).
Proof. by destruct cond. Qed.

Lemma bind_open_read {A} path (k : string → Body A) st :
  (open_read read_file path ≫= k) st =
    match read_file path with
    | Some text => k text st
    | None => (Raised IOError, st)
    end.
Proof. unfold mbind, body_bind, open_read. by destruct (read_file path). Qed.

Lemma bind_search_group1 {A} pattern text (k : string → Body A) st :
  (search_group1 re_search pattern text ≫= k) st =
    match re_search pattern text with
    | Some g => k g st
    | None => (Raised AttributeError, st)
    end.
Proof. unfold mbind, body_bind, search_group1. by destruct (re_search pattern text). Qed.

Lemma add_remote_tag_eq tags remote_tag st :
  add_remote_tag tags remote_tag st =
    match remote_tag_name remote_tag with
    | Some x => (Normal ({[ x ]} ∪ tags), st)
    | None => (Raised IndexError, st)
    end.
Proof.
  unfold add_remote_tag, remote_tag_name, mbind, body_bind, item.
  by destruct (split "refs/tags/" remote_tag !! 1%nat).
Qed.

(** The loop over the remote tag list: it leaves the state alone and either
    collects the tag every line names or raises at a line that names none. *)
Lemma tag_loop xs acc st :
  (Forall (λ remote_tag, is_Some (remote_tag_name remote_tag)) xs ∧
   ∃ tags : gset string,
     for_fold xs acc add_remote_tag st = (Normal tags, st) ∧
     ∀ x, x ∈ tags ↔ x ∈ acc ∨ ∃ remote_tag, remote_tag ∈ xs ∧
                                   remote_tag_name remote_tag = Some x) ∨
  (¬ Forall (λ remote_tag, is_Some (remote_tag_name remote_tag)) xs ∧
   for_fold xs acc add_remote_tag st = (Raised IndexError, st)).
Proof.
  revert acc. induction xs as [|x xs IH]; intros acc.
  - left. split; [constructor|]. exists acc. split; [done|].
    intros y. split; [by left|]. intros [?|(rt & Hrt & _)]; [done|].
    by apply elem_of_nil in Hrt.
  - simpl. unfold mbind, body_bind. rewrite add_remote_tag_eq.
    destruct (remote_tag_name x) as [name|] eqn:Ename.
    + destruct (IH ({[name]} ∪ acc)) as [(Hall & tags & Heq & Htags)|(Hnall & Heq)].
      * left. split.
        { constructor; [|done]. rewrite Ename. by eexists. }
        exists tags. split; [done|]. intros y. rewrite Htags.
        rewrite elem_of_union, elem_of_singleton. split.
        -- intros [[->|?]|(rt & Hrt & Hname)]; [|by left|].
           ++ right. exists x. split; [by left | done].
           ++ right. exists rt. split; [by right | done].
        -- intros [?|(rt & [->|Hrt]%elem_of_cons & Hname)]; [by left; right| |].
           ++ left. left. rewrite Ename in Hname. by injection Hname.
           ++ right. by exists rt.
      * right. split; [|done]. intros Hc. apply Hnall. by apply Forall_cons in Hc as [_ ?].
    + right. split; [|done]. intros Hc. apply Forall_cons in Hc as [[y Hy] _].
      by rewrite Ename in Hy.
Qed.

Lemma elem_of_sorted_elements (x : string) (tags : gset string) :
  x ∈ sorted (elements tags) ↔ x ∈ tags.
Proof.
  unfold sorted. rewrite (merge_sort_Permutation String.le (elements tags)).
  apply elem_of_elements.
Qed.

(** Every run of [tag] ends in one of the seven ways of [tag_run]. *)
Lemma tag_runs st out st' :
  tag_body st = (out, st') → tag_run shell read_file re_search st out st'.
Proof.
  unfold tag. rewrite bind_message, bind_run. cbv zeta.
  change (shell _ "git rev-parse --abbrev-ref HEAD" _) with (branch_probe shell st).
  change (mkState _ (_ ++ [Spawned _ _ true (branch_probe shell st)]))
    with (after_branch_probe shell st).
  destruct (decide (exited (branch_probe shell st) = 0)) as [Hb|Hb];
    [|intros [= <- <-]; by constructor].
  rewrite bind_assert. case_bool_decide as Hdev;
    [|intros [= <- <-]; by constructor].
  rewrite bind_open_read.
  change (PYTHON_PACKAGE_NAME +:+ "/" +:+ "__init__.py") with "colour_demosaicing/__init__.py".
  destruct (read_file "colour_demosaicing/__init__.py") as [file|] eqn:Efile.
  2: { intros [= <- <-]. apply tag_no_version; auto.
       unfold package_version. by rewrite Efile. }
  rewrite bind_search_group1.
  destruct (re_search "__major_version__\s+=\s+'(.*)'" file) as [major|] eqn:Emajor.
  2: { intros [= <- <-]. apply tag_no_version; auto.
       unfold package_version. rewrite Efile. simpl. by rewrite Emajor. }
  rewrite bind_search_group1.
  destruct (re_search "__minor_version__\s+=\s+'(.*)'" file) as [minor|] eqn:Eminor.
  2: { intros [= <- <-]. apply tag_no_version; auto.
       unfold package_version. rewrite Efile. simpl. rewrite Emajor. simpl.
       by rewrite Eminor. }
  rewrite bind_search_group1.
  destruct (re_search "__change_version__\s+=\s+'(.*)'" file) as [change|] eqn:Echange.
  2: { intros [= <- <-]. apply tag_no_version; auto.
       unfold package_version. rewrite Efile. simpl. rewrite Emajor. simpl.
       rewrite Eminor. simpl. by rewrite Echange. }
  assert (package_version read_file re_search
          = Some (String.concat "." [major; minor; change])) as Hversion.
  { unfold package_version. rewrite Efile. simpl. rewrite Emajor. simpl.
    rewrite Eminor. simpl. by rewrite Echange. }
  cbv zeta. generalize dependent (String.concat "." [major; minor; change]).
  intros version Hversion. rewrite bind_run.
  change (shell _ "git ls-remote --tags upstream" _) with (tags_probe shell st).
  change (mkState _ (_ ++ [Spawned _ _ true (tags_probe shell st)]))
    with (after_tags_probe shell st).
  destruct (decide (exited (tags_probe shell st) = 0)) as [Ht|Ht];
    [|intros [= <- <-]; by eapply tag_tags_probe_failed].
  unfold mbind at 1. unfold body_bind at 1.
  change (split newline (strip (stdout (tags_probe shell st))))
    with (remote_tags (stdout (tags_probe shell st))).
  destruct (tag_loop (remote_tags (stdout (tags_probe shell st))) ∅
              (after_tags_probe shell st))
    as [(Hall & tags & -> & Htags)|(Hnall & ->)];
    [|intros [= <- <-]; by eapply tag_list_unreadable].
  assert ("v" +:+ version ∈ sorted (elements tags)
          ↔ remote_has_tag version (stdout (tags_probe shell st))) as Hin.
  { rewrite elem_of_sorted_elements, Htags. unfold remote_has_tag. split.
    - intros [Hempty|?]; [|done]. by apply elem_of_empty in Hempty.
    - intros ?. by right. }
  rewrite bind_assert. case_bool_decide as Habsent.
  - intros Hrelease. eapply tag_released; eauto. by rewrite <- Hin.
  - change ("A " +:+ dq +:+ PYTHON_PACKAGE_NAME +:+ dq +:+ " " +:+ dq +:+ "v" +:+ version
            +:+ dq +:+ " tag already exists in remote repository!")
      with (tag_exists_message version).
    intros [= <- <-]. eapply tag_exists; eauto. apply Hin.
    by destruct (decide ("v" +:+ version ∈ sorted (elements tags))).
Qed.

Lemma lines_after_branch_probe st :
  lines_of (log (after_branch_probe shell st)) = lines_of (log st) ++ [branch_command].
Proof.
  unfold after_branch_probe. simpl. rewrite !lines_of_app. simpl.
  by rewrite app_nil_r.
Qed.

Lemma lines_after_tags_probe st :
  lines_of (log (after_tags_probe shell st))
    = lines_of (log st) ++ [branch_command; tags_command].
Proof.
  unfold after_tags_probe. simpl. rewrite !lines_of_app. simpl.
  by rewrite app_nil_r, <- app_assoc.
Qed.

Lemma release_issues version :
  issues shell
    (run shell false ("git flow release start v" +:+ version) ;;
     run shell false ("git flow release finish v" +:+ version) ;;
     mret tt)
    (release_commands version).
Proof. unfold release_commands. do 2 (apply issues_run; intros _). apply issues_ret. Qed.

Lemma release_keeps_log version s out s' :
  (run shell false ("git flow release start v" +:+ version) ;;
   run shell false ("git flow release finish v" +:+ version) ;;
   mret tt) s = (out, s') →
  (∀ ev, ev ∈ log s → ev ∈ log s') ∧ (∀ msg, out ≠ Raised (AssertionError msg)).
Proof.
  rewrite !bind_run. cbv zeta.
  repeat destruct (decide _); intros [= <- <-]; simpl;
    (split; [intros ev Hev; rewrite ?elem_of_app; tauto | done]).
Qed.

(** C7, as the code has it.  [tag] spawns its two probes (the current
    branch, the remote tag list) with their output captured and as ordinary
    commands: a non-zero status of either is a command failure that ends the
    task.  When a probe succeeds its text is consulted: the task asserts,
    with a message, that the branch is [develop] and that no line of the
    remote list names the tag of the package version.  The two
    [git flow release] commands are the only other commands the task spawns,
    and it spawns them only when both probes succeeded and both assertions
    held; a failed assertion leaves the probes as the only commands
    spawned. *)
Theorem tag_release_guard st out st' :
  tag_body st = (out, st') →
  ∃ issued,
    lines_of (log st') = lines_of (log st) ++ issued ∧
    Spawned branch_command (context st) true (branch_probe shell st) ∈ log st' ∧
    (exited (branch_probe shell st) ≠ 0 →
       out = Raised (CommandFailed (exited (branch_probe shell st))) ∧
       issued = [branch_command]) ∧
    (exited (branch_probe shell st) = 0 →
     strip (stdout (branch_probe shell st)) ≠ "develop" →
       out = Raised (AssertionError wrong_branch_message) ∧
       issued = [branch_command]) ∧
    (∀ version,
       exited (branch_probe shell st) = 0 →
       strip (stdout (branch_probe shell st)) = "develop" →
       package_version read_file re_search = Some version →
       Spawned tags_command (context st) true (tags_probe shell st) ∈ log st' ∧
       (exited (tags_probe shell st) ≠ 0 →
          out = Raised (CommandFailed (exited (tags_probe shell st))) ∧
          issued = [branch_command; tags_command]) ∧
       (exited (tags_probe shell st) = 0 →
        remote_has_tag version (stdout (tags_probe shell st)) →
          (out = Raised (AssertionError (tag_exists_message version)) ∨
           out = Raised IndexError) ∧
          issued = [branch_command; tags_command])) ∧
    (∀ line, line ∈ issued → line ≠ branch_command → line ≠ tags_command →
       exited (branch_probe shell st) = 0 ∧
       strip (stdout (branch_probe shell st)) = "develop" ∧
       ∃ version,
         package_version read_file re_search = Some version ∧
         exited (tags_probe shell st) = 0 ∧
         ¬ remote_has_tag version (stdout (tags_probe shell st)) ∧
         line ∈ release_commands version) ∧
    (∀ msg line, out = Raised (AssertionError msg) → line ∈ issued →
       line = branch_command ∨ line = tags_command).
Proof.
  intros Hrun. apply tag_runs in Hrun.
  assert (∀ line, line ∈ [branch_command] → line ≠ branch_command → False) as Hone.
  { intros line ->%list_elem_of_singleton. congruence. }
  assert (∀ line, line ∈ [branch_command; tags_command] →
            line = branch_command ∨ line = tags_command) as Htwo.
  { intros line [->|[->|[]%elem_of_nil]%elem_of_cons]%elem_of_cons; auto. }
  assert (Spawned branch_command (context st) true (branch_probe shell st)
            ∈ log (after_branch_probe shell st)) as Hbp.
  { unfold after_branch_probe. simpl. apply elem_of_app. right. by left. }
  assert (Spawned branch_command (context st) true (branch_probe shell st)
            ∈ log (after_tags_probe shell st)) as Hbp'.
  { unfold after_tags_probe. simpl. apply elem_of_app. by left. }
  assert (Spawned tags_command (context st) true (tags_probe shell st)
            ∈ log (after_tags_probe shell st)) as Htp.
  { unfold after_tags_probe. simpl. apply elem_of_app. right. by left. }
  assert (∀ x y : string, Some x = Some y → x = y) as Hinj by congruence.
  inversion Hrun as [Hb|Hb Hdev|e Hb Hdev Hv He|version Hb Hdev Hv Ht
                     |version Hb Hdev Hv Ht Hbad|version Hb Hdev Hv Ht Hhas
                     |version out' st'' Hb Hdev Hv Ht Hnot Hrel]; subst.
  - exists [branch_command]. split; [apply lines_after_branch_probe|].
    split; [exact Hbp|]. split; [|split; [|split; [|split]]].
    + intros _. by split.
    + intros; contradiction.
    + intros; contradiction.
    + intros line Hin Hne. destruct (Hone line Hin Hne).
    + intros msg line [=].
  - exists [branch_command]. split; [apply lines_after_branch_probe|].
    split; [exact Hbp|]. split; [|split; [|split; [|split]]].
    + intros; contradiction.
    + intros _ _. by split.
    + intros; contradiction.
    + intros line Hin Hne. destruct (Hone line Hin Hne).
    + intros msg line _ Hin. left. by apply list_elem_of_singleton in Hin.
  - exists [branch_command]. split; [apply lines_after_branch_probe|].
    split; [exact Hbp|]. split; [|split; [|split; [|split]]].
    + intros; contradiction.
    + intros; contradiction.
    + intros v _ _ Hv'. congruence.
    + intros line Hin Hne. destruct (Hone line Hin Hne).
    + intros msg line [= ->]. by destruct He.
  - exists [branch_command; tags_command]. split; [apply lines_after_tags_probe|].
    split; [exact Hbp'|]. split; [|split; [|split; [|split]]].
    + intros; contradiction.
    + intros; contradiction.
    + intros v _ _ Hv'. split; [exact Htp|]. split; [by split | intros; contradiction].
    + intros line Hin Hne1 Hne2. destruct (Htwo line Hin); contradiction.
    + intros msg line [=].
  - exists [branch_command; tags_command]. split; [apply lines_after_tags_probe|].
    split; [exact Hbp'|]. split; [|split; [|split; [|split]]].
    + intros; contradiction.
    + intros; contradiction.
    + intros v _ _ Hv'. split; [exact Htp|]. split; [intros; contradiction|].
      intros _ _. split; [by right | done].
    + intros line Hin Hne1 Hne2. destruct (Htwo line Hin); contradiction.
    + intros msg line [=].
  - exists [branch_command; tags_command]. split; [apply lines_after_tags_probe|].
    split; [exact Hbp'|]. split; [|split; [|split; [|split]]].
    + intros; contradiction.
    + intros; contradiction.
    + intros v _ _ Hv'. rewrite Hv in Hv'. apply Hinj in Hv' as <-.
      split; [exact Htp|]. split; [intros; contradiction|].
      intros _ _. split; [by left | done].
    + intros line Hin Hne1 Hne2. destruct (Htwo line Hin); contradiction.
    + intros msg line _ Hin. by apply Htwo.
  - destruct (issues_run_of shell _ _ _ _ _ (release_issues version) Hrel)
      as (issued & Hlog & Hpre & Hall & Hok).
    rewrite lines_after_tags_probe in Hlog.
    exists ([branch_command; tags_command] ++ issued).
    split; [by rewrite Hlog, <- app_assoc|].
    destruct (release_keeps_log version _ _ _ Hrel) as [Hkeep Hnoassert].
    split; [by apply Hkeep|]. split; [|split; [|split; [|split]]].
    + intros; contradiction.
    + intros; contradiction.
    + intros v _ _ Hv'. rewrite Hv in Hv'. apply Hinj in Hv' as <-.
      split; [by apply Hkeep|]. split; intros; contradiction.
    + intros line Hin Hne1 Hne2. split; [done|]. split; [done|].
      exists version. split; [done|]. split; [done|]. split; [done|].
      apply elem_of_app in Hin as [Hin|Hin]; [destruct (Htwo _ Hin); contradiction|].
      destruct Hpre as [rest ->]. apply elem_of_app. by left.
    + intros msg line Hout. by destruct (Hnoassert msg).
Qed.

End TagFacts.

(** [tag] on branch develop with v0.1.0 and v0.1.1 on the remote: version
    0.1.2 is released, version 0.1.1 is refused; on any other branch nothing
    is released. *)
Example tag_examples :
  (tag develop_shell any_file (version_parts "2") initial).1 = Normal tt ∧
  lines_of (log (tag develop_shell any_file (version_parts "2") initial).2)
    = [branch_command; tags_command;
       "git flow release start v0.1.2"; "git flow release finish v0.1.2"] ∧
  (tag develop_shell any_file (version_parts "1") initial).1
    = Raised (AssertionError (tag_exists_message "0.1.1")) ∧
  lines_of (log (tag develop_shell any_file (version_parts "1") initial).2)
    = [branch_command; tags_command] ∧
  (tag quiet_shell any_file (version_parts "2") initial).1
    = Raised (AssertionError wrong_branch_message) ∧
  lines_of (log (tag quiet_shell any_file (version_parts "2") initial).2)
    = [branch_command].
Proof. repeat split; vm_compute; reflexivity. Qed.

(** With no tag on the remote the list has one empty line, which names no
    tag: the loop over the list raises and nothing is released. *)
Example tag_empty_remote_list :
  remote_tags (stdout (tags_probe fresh_remote_shell initial)) = [EmptyString] ∧
  (tag fresh_remote_shell any_file (version_parts "2") initial).1 = Raised IndexError ∧
  lines_of (log (tag fresh_remote_shell any_file (version_parts "2") initial).2)
    = [branch_command; tags_command].
Proof. repeat split; vm_compute; reflexivity. Qed.

Lemma tag_release_guard_develop :
  ∃ issued,
    lines_of (log (tag develop_shell any_file (version_parts "2") initial).2)
      = lines_of (log initial) ++ issued ∧
    ∀ line, line ∈ issued → line ≠ branch_command → line ≠ tags_command →
      exited (branch_probe develop_shell initial) = 0 ∧
      strip (stdout (branch_probe develop_shell initial)) = "develop" ∧
      ∃ version,
        package_version any_file (version_parts "2") = Some version ∧
        exited (tags_probe develop_shell initial) = 0 ∧
        ¬ remote_has_tag version (stdout (tags_probe develop_shell initial)) ∧
        line ∈ release_commands version.
Proof.
  destruct (tag_release_guard develop_shell any_file (version_parts "2") initial
              (Normal tt)
              (tag develop_shell any_file (version_parts "2") initial).2)
    as (issued & Hlog & _ & _ & _ & _ & Hguard & _).
  - vm_compute. reflexivity.
  - exists issued. split; [exact Hlog | exact Hguard].
Defined.

(** C7, as the claim states it, fails: a probe that exits with a non-zero
    status is a fatal command failure.  Outside a repository the branch
    probe ends the task with its status, and so does the probe of the remote
    tags when the remote is missing; no assertion is reached. *)
Lemma tag_probe_failure_is_fatal :
  (tag detached_shell any_file (version_parts "2") initial).1
    = Raised (CommandFailed 128) ∧
  lines_of (log (tag detached_shell any_file (version_parts "2") initial).2)
    = [branch_command] ∧
  (tag no_upstream_shell any_file (version_parts "2") initial).1
    = Raised (CommandFailed 128) ∧
  lines_of (log (tag no_upstream_shell any_file (version_parts "2") initial).2)
    = [branch_command; tags_command].
Proof. repeat split; vm_compute; reflexivity. Qed.

(** ** Witnesses on concrete runs *)

Lemma clean_commands_issued_quiet :
  ∃ issued,
    lines_of (log (clean quiet_shell true true initial).2)
      = lines_of (log initial) ++ issued ∧
    issued `prefix_of` clean_commands true true ∧
    (completes (clean quiet_shell true true initial).1 →
       issued = clean_commands true true) ∧
    ((∀ h l c, exited (quiet_shell h l c) = 0) →
       completes (clean quiet_shell true true initial).1).
Proof.
  apply (clean_commands_issued quiet_shell true true initial).
  vm_compute. reflexivity.
Defined.

Example clean_quiet :
  lines_of (log (clean quiet_shell true true initial).2)
    = ["rm -rf build"; "rm -rf *.egg-info"; "rm -rf dist";
       "rm -rf docs/_build"; "rm -rf docs/generated"; "rm -rf **/*.pyc"] ∧
  lines_of (log (clean quiet_shell true false initial).2)
    = ["rm -rf build"; "rm -rf *.egg-info"; "rm -rf dist";
       "rm -rf docs/_build"; "rm -rf docs/generated"] ∧
  lines_of (log (clean quiet_shell false true initial).2)
    = ["rm -rf build"; "rm -rf *.egg-info"; "rm -rf dist"; "rm -rf **/*.pyc"] ∧
  lines_of (log (clean quiet_shell false false initial).2)
    = ["rm -rf build"; "rm -rf *.egg-info"; "rm -rf dist"].
Proof. repeat split; vm_compute; reflexivity. Qed.

Lemma virtualise_never_runs_nosetests_quiet :
  (∃ issued,
     lines_of (log (virtualise quiet_shell true initial).2)
       = lines_of (log initial) ++ issued ∧
     issued `prefix_of` virtualise_commands ∧
     (nosetests_binary ∉ issued) ∧
     (completes (virtualise quiet_shell true initial).1 →
        issued = virtualise_commands) ∧
     ((∀ h l c, exited (quiet_shell h l c) = 0) →
        completes (virtualise quiet_shell true initial).1)) ∧
  (virtualise quiet_shell (negb true) initial).2
    = (virtualise quiet_shell true initial).2.
Proof.
  apply (virtualise_never_runs_nosetests quiet_shell true initial).
  vm_compute. reflexivity.
Defined.

Example virtualise_quiet :
  (virtualise quiet_shell true initial).1 = Returned ∧
  (virtualise quiet_shell false initial).1 = Normal tt ∧
  lines_of (log (virtualise quiet_shell true initial).2) = virtualise_commands ∧
  lines_of (log (virtualise quiet_shell false initial).2) = virtualise_commands.
Proof. repeat split; vm_compute; reflexivity. Qed.

(** A command that fails inside a directory scope: the failure is raised
    and the context is the one the scope was opened in. *)
Lemma scoped_acquisition_restores_failing :
  (∀ out st',
     cd "docs" (run chain_shell false "make C") initial = (out, st') →
     context st' = context initial ∧
     ∃ s, run chain_shell false "make C" (with_context (push_cwd "docs") initial)
            = (out, s) ∧ log st' = log s) ∧
  (∀ out st',
     prefix "docs" (run chain_shell false "make C") initial = (out, st') →
     context st' = context initial ∧
     ∃ s, run chain_shell false "make C" (with_context (push_prefix "docs") initial)
            = (out, s) ∧ log st' = log s).
Proof.
  apply (scoped_acquisition_restores "docs" (run chain_shell false "make C") initial).
  apply scoped_run.
Defined.

Example cd_failing :
  cd "docs" (run chain_shell false "make C") initial
    = (Raised (CommandFailed 2),
       mkState (mkContext [] [])
         [Spawned "make C" (mkContext ["docs"] []) false (mkResult 2 EmptyString)]).
Proof. vm_compute. reflexivity. Qed.

(** * The calls of the task bodies *)

Section Calls.

Variable shell : list Event → string → Context → ExecutionResult.

Lemma calls_of_app l1 l2 : calls_of (l1 ++ l2) = calls_of l1 ++ calls_of l2.
Proof. apply omap_app. Qed.

Lemma pop_push_cwd path c : pop_cwd (push_cwd path c) = c.
Proof. by destruct c. Qed.

Lemma pop_push_prefix command c : pop_prefix (push_prefix command c) = c.
Proof. by destruct c. Qed.

Lemma in_context_inside f c cmds : in_context c (inside f cmds) = in_context (f c) cmds.
Proof. unfold in_context, inside. rewrite map_map. done. Qed.

Lemma inside_prefix_of f (l1 l2 : list Call) :
  l1 `prefix_of` l2 → inside f l1 `prefix_of` inside f l2.
Proof. intros [k ->]. unfold inside. rewrite map_app. by eexists. Qed.

Lemma spawns_eq b {A} (m : Body A) cmds cmds' :
  spawns shell b m cmds → cmds = cmds' → spawns shell b m cmds'.
Proof. by intros H <-. Qed.

Lemma spawns_ret b {A} (a : A) : spawns shell b (mret a) [].
Proof.
  intros st. exists []. simpl. rewrite app_nil_r. repeat split; auto.
Qed.

Lemma spawns_message b text : spawns shell b (message_box text) [].
Proof.
  intros st. exists []. simpl. rewrite calls_of_app. simpl.
  rewrite !app_nil_r. repeat split; auto.
Qed.

Lemma spawns_run b hide line : spawns shell b (run shell hide line) [(line, id)].
Proof.
  intros st. unfold run.
  destruct (decide (exited (shell (log st) line (context st)) = 0)) as [Hz|Hnz]; simpl.
  - exists [(line, id)]. rewrite calls_of_app. repeat split; auto.
  - exists [(line, id)]. rewrite calls_of_app. repeat split; auto.
Qed.

Lemma spawns_return_bind {A} (k : unit → Body A) : spawns shell true (return_ ≫= k) [].
Proof.
  intros st. exists []. simpl. rewrite app_nil_r. repeat split; auto.
Qed.

Lemma spawns_bind b {A B} (m : Body A) (k : A → Body B) c1 c2 :
  spawns shell false m c1 → (∀ a, spawns shell b (k a) c2) →
  spawns shell b (m ≫= k) (c1 ++ c2).
Proof.
  intros Hm Hk st. unfold mbind, body_bind.
  destruct (Hm st) as (i1 & Hlog1 & Hpre1 & Hall1 & Hok1 & Hctx1 & Hret1).
  destruct (m st) as [[a| |e] s1]; simpl in *.
  - rewrite (Hall1 I) in Hlog1.
    destruct (Hk a s1) as (i2 & Hlog2 & Hpre2 & Hall2 & Hok2 & Hctx2 & Hret2).
    exists (c1 ++ i2). rewrite Hlog2, Hlog1, Hctx1, Hctx2.
    unfold in_context. rewrite map_app, app_assoc.
    split; [done|]. split; [by apply prefix_app|].
    split; [|done]. intros Hc. by rewrite (Hall2 Hc).
  - by destruct Hret1.
  - exists i1. split; [done|]. split; [by apply prefix_app_r|].
    split; [done|]. split; [done|]. split; [done|]. done.
Qed.

Lemma spawns_scope b {A} (push pop : Context → Context) (m : Body A) cmds :
  (∀ c, pop (push c) = c) →
  spawns shell b m cmds →
  spawns shell b (λ st, let '(out, st') := m (with_context push st) in
                        (out, with_context pop st'))
    (inside push cmds).
Proof.
  intros Hpp Hm st.
  destruct (Hm (with_context push st)) as (i & Hlog & Hpre & Hall & Hok & Hctx & Hret).
  destruct (m (with_context push st)) as [out s]. simpl in *.
  exists (inside push i). rewrite in_context_inside.
  split; [done|]. split; [by apply inside_prefix_of|].
  split; [intros Hc; by rewrite (Hall Hc)|]. split; [done|].
  split; [by rewrite Hctx, Hpp | done].
Qed.

Lemma spawns_cd b {A} path (m : Body A) cmds :
  spawns shell b m cmds → spawns shell b (cd path m) (inside (push_cwd path) cmds).
Proof. apply spawns_scope, pop_push_cwd. Qed.

Lemma spawns_prefix b {A} command (m : Body A) cmds :
  spawns shell b m cmds →
  spawns shell b (prefix command m) (inside (push_prefix command) cmds).
Proof. apply spawns_scope, pop_push_prefix. Qed.

Lemma spawns_if b {A} (c : bool) (m1 m2 : Body A) l1 l2 :
  spawns shell b m1 l1 → spawns shell b m2 l2 →
  spawns shell b (if c then m1 else m2) (if c then l1 else l2).
Proof. by destruct c. Qed.

Lemma spawns_for_each {A} (xs : list A) (f : A → Body unit) (g : A → Call) :
  (∀ x, spawns shell false (f x) [g x]) →
  spawns shell false (for_each xs f) (map g xs).
Proof.
  intros Hf. induction xs as [|x xs IH]; simpl; [apply spawns_ret|].
  apply (spawns_bind false (f x) (λ _, for_each xs f) [g x] (map g xs)); auto.
Qed.

End Calls.

(** Applies the rules of [spawns] along the structure of a body. *)
Ltac spawns_rules :=
  repeat first
    [ apply spawns_ret | apply spawns_message | apply spawns_run
    | apply spawns_return_bind
    | eapply spawns_cd | eapply spawns_prefix
    | eapply spawns_if
    | eapply spawns_bind; [|intros ?] ].

Ltac spawns_body := eapply spawns_eq; [spawns_rules | reflexivity].

Section TaskCalls.

Variable shell : list Event → string → Context → ExecutionResult.
Variable example_files : list string.

(** X1. [formatting] spawns, in this order and nothing else, [yapf] in the
    invocation directory when [yapf] is set and [./unicode_to_ascii.py]
    inside [utilities] when [asciify] is set; with neither option it spawns
    nothing.  A failing [yapf] ends the body before the conversion; the
    context is handed back as it was, and the body never returns early. *)
Theorem formatting_spawns yapf asciify :
  spawns shell false (formatting shell yapf asciify) (formatting_calls yapf asciify).
Proof.
  unfold formatting, formatting_calls. destruct yapf, asciify; spawns_body.
Qed.

(** X2. [quality] spawns, in this order and nothing else, [flake8] on the
    package when [flake8] is set and [rst-lint README.rst] when [rstlint]
    is set, both in the invocation context; with neither option it spawns
    nothing, and a failing [flake8] ends the body before the lint. *)
Theorem quality_spawns flake8 rstlint :
  spawns shell false (quality shell flake8 rstlint) (quality_calls flake8 rstlint).
Proof.
  unfold quality, quality_calls. destruct flake8, rstlint; spawns_body.
Qed.

(** X3. [examples] spawns one [python <path>] per example file found, in
    the order the files are found and in the invocation context, stopping at
    the first example that fails; with no example file it spawns nothing. *)
Theorem examples_spawns :
  spawns shell false (examples shell example_files) (examples_calls example_files).
Proof.
  unfold examples, examples_calls.
  apply (spawns_bind shell false (message_box "Running examples...") _ []).
  - apply spawns_message.
  - intros _. apply spawns_for_each. intros path. spawns_body.
Qed.

(** X4. Every command [docs] spawns sees the documentation-build export
    on the overlay and [docs] on top of the directory stack: [make html]
    when [html] is set, then [make latexpdf] when [pdf] is set, and nothing
    else.  A failing HTML build ends the body before the PDF build, and both
    the overlay entry and the directory are gone when the body ends,
    however it ends. *)
Theorem docs_spawns html pdf :
  spawns shell false (docs shell html pdf) (docs_calls html pdf).
Proof.
  unfold docs, docs_calls. destruct html, pdf; spawns_body.
Qed.

(** X5. [todo] spawns exactly [./export_todo.py], inside [utilities], and
    leaves that directory again, also when the script fails. *)
Theorem todo_spawns : spawns shell false (todo shell) todo_calls.
Proof. unfold todo, todo_calls. spawns_body. Qed.



(** X8. [sha256] spawns exactly one [openssl sha256] on the source archive,
    inside [dist], and leaves [dist] again. *)
Theorem sha256_spawns : spawns shell false (sha256 shell) sha256_calls.
Proof. unfold sha256, sha256_calls. spawns_body. Qed.

(** X9. [virtualise] unpacks the archive and creates the virtual
    environment inside [dist], and runs [pwd] and the five pip installs
    inside the unpacked directory within [dist], in this order and nothing
    else.  Both directories are left when the body ends, also on the early
    [return] taken when [tests] is set and when a command fails. *)
Theorem virtualise_spawns tests :
  spawns shell true (virtualise shell tests) virtualise_calls.
Proof.
  unfold virtualise, virtualise_calls. destruct tests; spawns_body.
Qed.

End TaskCalls.

Example docs_quiet :
  calls_of (log (docs quiet_shell true true initial).2)
    = [("make html",
        mkContext ["docs"] ["export COLOUR_SCIENCE_DOCUMENTATION_BUILD=True"]);
       ("make latexpdf",
        mkContext ["docs"] ["export COLOUR_SCIENCE_DOCUMENTATION_BUILD=True"])] ∧
  context (docs quiet_shell true true initial).2 = mkContext [] [].
Proof. split; vm_compute; reflexivity. Qed.

(** X10. Every task body of [tasks.py], at every value of its options,
    hands back the context it was entered with, only adds to the log, and
    stops at a failed command: a command that exits with a non-zero status is
    the last thing the body logs, and the body raises that status. *)
Theorem bodies_disciplined
    (shell : list Event → string → Context → ExecutionResult)
    (example_files : list string)
    (read_file : string → option string)
    (re_search : string → string → option string)
    (docs_ bytecode yapf asciify nose flake8 rstlint html pdf tests_ : bool) :
  Forall (λ m : Body unit, scoped m ∧ failfast m)
    [clean shell docs_ bytecode; formatting shell yapf asciify; tests shell nose;
     quality shell flake8 rstlint; examples shell example_files;
     docs shell html pdf; todo shell; preflight; build shell;
     virtualise shell tests_; tag shell read_file re_search; release shell;
     sha256 shell].
Proof.
  unfold clean, formatting, tests, quality, examples, docs, todo, preflight,
    build, virtualise, tag, release, sha256.
  repeat (apply Forall_cons; split;
          [split; [auto 20 with scoped | auto 20 with failfast]|]).
  constructor.
Qed.

(** * More on [tag] *)

Section TagMore.

Variable shell : list Event → string → Context → ExecutionResult.
Variable read_file : string → option string.
Variable re_search : string → string → option string.

Abbreviation tag_task := (tag shell read_file re_search).

(** What is left of [tag] once both probes have succeeded on branch
    develop and the version has been read. *)
Lemma tag_after_probes st version :
  exited (branch_probe shell st) = 0 →
  strip (stdout (branch_probe shell st)) = "develop" →
  package_version read_file re_search = Some version →
  exited (tags_probe shell st) = 0 →
  tag_task st =
    (tags ← for_fold (remote_tags (stdout (tags_probe shell st))) ∅ add_remote_tag ;
     assert_ (bool_decide ("v" +:+ version ∉ sorted (elements tags)))
       (tag_exists_message version) ;;
     run shell false ("git flow release start v" +:+ version) ;;
     run shell false ("git flow release finish v" +:+ version) ;;
     mret tt) (after_tags_probe shell st).
Proof.
  intros Hb Hdev Hv Ht. unfold tag.
  rewrite bind_message, bind_run. cbv zeta.
  change (shell _ "git rev-parse --abbrev-ref HEAD" _) with (branch_probe shell st).
  change (mkState _ (_ ++ [Spawned _ _ true (branch_probe shell st)]))
    with (after_branch_probe shell st).
  rewrite decide_True by done. rewrite bind_assert, bool_decide_true by done.
  rewrite bind_open_read.
  change (PYTHON_PACKAGE_NAME +:+ "/" +:+ "__init__.py") with "colour_demosaicing/__init__.py".
  unfold package_version in Hv.
  destruct (read_file "colour_demosaicing/__init__.py") as [file|]; [|done].
  simpl in Hv. rewrite bind_search_group1.
  destruct (re_search "__major_version__\s+=\s+'(.*)'" file) as [major|]; [|done].
  simpl in Hv. rewrite bind_search_group1.
  destruct (re_search "__minor_version__\s+=\s+'(.*)'" file) as [minor|]; [|done].
  simpl in Hv. rewrite bind_search_group1.
  destruct (re_search "__change_version__\s+=\s+'(.*)'" file) as [change|]; [|done].
  simpl in Hv. injection Hv as Hv. cbv zeta.
  change (String.concat "." [major; minor; change])
    with (major +:+ "." +:+ minor +:+ "." +:+ change).
  rewrite Hv. rewrite bind_run.
  change (shell _ "git ls-remote --tags upstream" _) with (tags_probe shell st).
  change (mkState _ (_ ++ [Spawned _ _ true (tags_probe shell st)]))
    with (after_tags_probe shell st).
  rewrite decide_True by done. reflexivity.
Qed.

(** The two release commands, run from any state. *)
Lemma release_run version s :
  (run shell false ("git flow release start v" +:+ version) ;;
   run shell false ("git flow release finish v" +:+ version) ;;
   mret tt) s =
  let start := shell (log s) ("git flow release start v" +:+ version) (context s) in
  let started := Spawned ("git flow release start v" +:+ version) (context s) false start in
  let finish := shell (log s ++ [started])
                  ("git flow release finish v" +:+ version) (context s) in
  let finished := Spawned ("git flow release finish v" +:+ version) (context s) false finish in
  if decide (exited start = 0)
  then (if decide (exited finish = 0) then Normal tt
        else Raised (CommandFailed (exited finish)),
        mkState (context s) (log s ++ [started; finished]))
  else (Raised (CommandFailed (exited start)), mkState (context s) (log s ++ [started])).
Proof.
  rewrite bind_run. cbv zeta. destruct (decide _); [|done].
  rewrite bind_run. cbv zeta. simpl. rewrite <- app_assoc. simpl.
  by destruct (decide _).
Qed.

(** X11. [tag] spawns [git flow release finish] only right after
    [git flow release start] for the same version, the version read from the
    package, has exited with status 0.  A failing start ends the task with
    its status and no finish; after a successful start the task completes
    exactly when the finish succeeds.  In every other run the task ends, not
    completed, in the state left by the last probe, with nothing released. *)
Theorem tag_release_order st :
  ((tag_task st).2 = after_branch_probe shell st ∧ ¬ completes (tag_task st).1) ∨
  ((tag_task st).2 = after_tags_probe shell st ∧ ¬ completes (tag_task st).1) ∨
  ∃ version,
    package_version read_file re_search = Some version ∧
    ((∃ start,
        exited start ≠ 0 ∧
        tag_task st =
          (Raised (CommandFailed (exited start)),
           mkState (context st)
             (log (after_tags_probe shell st)
                ++ [Spawned ("git flow release start v" +:+ version)
                      (context st) false start]))) ∨
     (∃ start finish,
        exited start = 0 ∧
        (tag_task st).2 =
          mkState (context st)
            (log (after_tags_probe shell st)
               ++ [Spawned ("git flow release start v" +:+ version)
                     (context st) false start;
                   Spawned ("git flow release finish v" +:+ version)
                     (context st) false finish]) ∧
        (tag_task st).1 =
          if decide (exited finish = 0) then Normal tt
          else Raised (CommandFailed (exited finish)))).
Proof.
  destruct (tag_task st) as [out st'] eqn:E.
  pose proof (tag_runs _ _ _ _ _ _ E) as Hrun. simpl.
  inversion Hrun as [Hb|Hb Hdev|e Hb Hdev Hv He|version Hb Hdev Hv Ht
                     |version Hb Hdev Hv Ht Hbad|version Hb Hdev Hv Ht Hhas
                     |version out' st'' Hb Hdev Hv Ht Hnot Hrel]; subst;
    [left; split; [done|by intros []]..
    |right; left; split; [done|by intros []]
    |right; left; split; [done|by intros []]
    |right; left; split; [done|by intros []]
    |].
  right. right. exists version. split; [done|].
  rewrite release_run in Hrel. cbv zeta in Hrel.
  destruct (decide _) as [Hs|Hs]; injection Hrel as <- <-.
  - right. eexists _, _. split; [exact Hs|]. split; reflexivity.
  - left. eexists. split; [exact Hs | reflexivity].
Qed.

(** X12. When the package version cannot be read (the file does not open,
    or one of the three version fields is not found), [tag] stops after the
    branch probe: it raises, the remote is not probed and nothing is
    released. *)
Theorem tag_without_version st :
  package_version read_file re_search = None →
  (tag_task st).2 = after_branch_probe shell st ∧
  lines_of (log (tag_task st).2) = lines_of (log st) ++ [branch_command] ∧
  ¬ completes (tag_task st).1.
Proof.
  intros Hnone. destruct (tag_task st) as [out st'] eqn:E.
  pose proof (tag_runs _ _ _ _ _ _ E) as Hrun. simpl.
  inversion Hrun; subst; try congruence;
    (split; [done|]; split; [apply lines_after_branch_probe | by intros []]).
Qed.

Lemma remote_tags_blank out :
  strip out = EmptyString →
  ∃ remote_tag, remote_tag ∈ remote_tags out ∧
    split "refs/tags/" remote_tag !! 1%nat = None.
Proof.
  intros Hout. exists EmptyString. unfold remote_tags. rewrite Hout.
  split; [by left | done].
Qed.

(** X13. When a line of the remote tag list does not contain [refs/tags/],
    the index into the split line is out of range: [tag] raises
    [IndexError] right after the probe of the remote tags and releases
    nothing, whether or not the tag of the version is on the remote.  A
    remote without any tag is such a case: its list is one empty line. *)
Theorem tag_unreadable_tag_list st version :
  exited (branch_probe shell st) = 0 →
  strip (stdout (branch_probe shell st)) = "develop" →
  package_version read_file re_search = Some version →
  exited (tags_probe shell st) = 0 →
  strip (stdout (tags_probe shell st)) = EmptyString ∨
  (∃ remote_tag, remote_tag ∈ remote_tags (stdout (tags_probe shell st)) ∧
     split "refs/tags/" remote_tag !! 1%nat = None) →
  tag_task st = (Raised IndexError, after_tags_probe shell st).
Proof.
  intros Hb Hdev Hv Ht Hbad.
  assert (∃ remote_tag, remote_tag ∈ remote_tags (stdout (tags_probe shell st)) ∧
            split "refs/tags/" remote_tag !! 1%nat = None) as (rt & Hin & Hnone).
  { destruct Hbad as [Hblank|?]; [by apply remote_tags_blank | done]. }
  rewrite (tag_after_probes st version) by done.
  unfold mbind at 1. unfold body_bind at 1.
  destruct (tag_loop (remote_tags (stdout (tags_probe shell st))) ∅
              (after_tags_probe shell st)) as [(Hall & _)|(_ & ->)]; [|done].
  rewrite Forall_forall in Hall. destruct (Hall rt Hin) as [name Hname].
  unfold remote_tag_name in Hname. by rewrite Hnone in Hname.
Qed.

End TagMore.

Lemma tag_without_version_unreadable :
  (tag develop_shell (λ _, None) (version_parts "2") initial).2
    = after_branch_probe develop_shell initial ∧
  lines_of (log (tag develop_shell (λ _, None) (version_parts "2") initial).2)
    = lines_of (log initial) ++ [branch_command] ∧
  ¬ completes (tag develop_shell (λ _, None) (version_parts "2") initial).1.
Proof.
  apply (tag_without_version develop_shell (λ _, None) (version_parts "2") initial).
  reflexivity.
Defined.

Lemma tag_unreadable_tag_list_fresh :
  tag fresh_remote_shell any_file (version_parts "2") initial
    = (Raised IndexError, after_tags_probe fresh_remote_shell initial).
Proof.
  apply (tag_unreadable_tag_list fresh_remote_shell any_file (version_parts "2")
           initial "0.1.2").
  - vm_compute. reflexivity.
  - vm_compute. reflexivity.
  - vm_compute. reflexivity.
  - vm_compute. reflexivity.
  - left. vm_compute. reflexivity.
Defined.

(** * Prerequisites of [release] and [virtualise] *)

(** A task of the order was entered only if all tasks before it completed. *)
Lemma execute_entered reg l1 t l2 st :
  t ∉ l1 → t ∈ (execute reg (l1 ++ t :: l2) st).1 →
  ∃ st1, execute reg l1 st = (l1, (Normal tt, st1)).
Proof.
  revert st. induction l1 as [|x l1 IH]; intros st Hnotin Hran; [by eexists|].
  apply not_elem_of_cons in Hnotin as [Hne Hnotin]. simpl in Hran |- *.
  destruct (reg !! x) as [task|].
  - destruct (call (body task) st) as [[[]| |e] s].
    + specialize (IH s Hnotin).
      destruct (execute reg (l1 ++ t :: l2) s) as [ran out]. simpl in *.
      apply elem_of_cons in Hran as [->|Hran]; [done|].
      destruct (IH Hran) as [st1 ->]. by eexists.
    + simpl in Hran. apply list_elem_of_singleton in Hran. done.
    + simpl in Hran. apply list_elem_of_singleton in Hran. done.
  - simpl in Hran. by apply elem_of_nil in Hran.
Qed.

Lemma resolve_release shell example_files read_file re_search :
  resolve (registry shell example_files read_file re_search) "release"
    = Some (Resolved (clean_and_build ++ ["release"])).
Proof. vm_compute. reflexivity. Qed.

Lemma resolve_virtualise shell example_files read_file re_search :
  resolve (registry shell example_files read_file re_search) "virtualise"
    = Some (Resolved (clean_and_build ++ ["virtualise"])).
Proof. vm_compute. reflexivity. Qed.

Lemma entered_after_clean_and_build reg t st :
  t ∉ clean_and_build →
  resolve reg t = Some (Resolved (clean_and_build ++ [t])) →
  t ∈ (invoke reg t st).1 →
  ∃ st1, execute reg clean_and_build st = (clean_and_build, (Normal tt, st1)).
Proof.
  intros Hnotin Hres. unfold invoke. rewrite Hres.
  exact (execute_entered reg clean_and_build t [] st Hnotin).
Qed.

(** X14. [release] and [virtualise] are both declared after [clean] and
    [build]: a request for either resolves to clean, docs, todo, formatting,
    tests, quality, examples, preflight, build and then the task itself, and
    the body of the task is entered only when all nine tasks before it have
    completed. *)
Theorem release_after_clean_and_build
    (shell : list Event → string → Context → ExecutionResult)
    (example_files : list string)
    (read_file : string → option string)
    (re_search : string → string → option string) :
  Forall (λ t,
    resolve (registry shell example_files read_file re_search) t
      = Some (Resolved (clean_and_build ++ [t])) ∧
    ∀ st,
      t ∈ (invoke (registry shell example_files read_file re_search) t st).1 →
      ∃ st1,
        execute (registry shell example_files read_file re_search) clean_and_build st
          = (clean_and_build, (Normal tt, st1)))
    ["release"; "virtualise"].
Proof.
  apply Forall_cons. split.
  - split; [apply resolve_release|]. intros st.
    apply entered_after_clean_and_build; [compute_done | apply resolve_release].
  - apply Forall_cons. split; [|constructor].
    split; [apply resolve_virtualise|]. intros st.
    apply entered_after_clean_and_build; [compute_done | apply resolve_virtualise].
Qed.

(** * The pieces of a split line *)

Section SplitFacts.

Implicit Types sep q s p b : string.

Lemma append_cons d q s : String d q +:+ s = String d (q +:+ s).
Proof. reflexivity. Qed.

Lemma append_snoc q c s : (q +:+ String c EmptyString) +:+ s = q +:+ String c s.
Proof.
  induction q as [|d q IH]; [done|]. rewrite !append_cons. by rewrite IH.
Qed.

Lemma append_empty_r q : q +:+ EmptyString = q.
Proof. induction q as [|d q IH]; [done|]. rewrite append_cons. by rewrite IH. Qed.

Lemma reverse_onto_append p acc : reverse_onto p acc = reversed p +:+ acc.
Proof.
  unfold reversed. revert acc. induction p as [|c p IH]; intros acc; [done|].
  simpl reverse_onto.
  rewrite (IH (String c acc)), (IH (String c EmptyString)). by rewrite append_snoc.
Qed.

Lemma reversed_cons c p : reversed (String c p) = reversed p +:+ String c EmptyString.
Proof. unfold reversed at 1. simpl reverse_onto. apply reverse_onto_append. Qed.

Lemma prefix_append sep b s : String.prefix sep b = true → String.prefix sep (b +:+ s) = true.
Proof.
  revert b. induction sep as [|a sep' IH]; intros b Hb.
  - by destruct (b +:+ s).
  - destruct b as [|c b]; [done|]. rewrite append_cons. simpl in *.
    destruct (ascii_dec a c); [by apply IH | done].
Qed.

Lemma clean_before_cons sep d q s :
  clean_before sep (String d q) s
    = negb (String.prefix sep (String d q +:+ s)) && clean_before sep q s.
Proof. reflexivity. Qed.

Lemma no_sep_cons sep d q :
  no_sep sep (String d q) = negb (String.prefix sep (String d q)) && no_sep sep q.
Proof. reflexivity. Qed.

Lemma clean_before_snoc sep q c s :
  clean_before sep (q +:+ String c EmptyString) s
    = clean_before sep q (String c s) && negb (String.prefix sep (String c s)).
Proof.
  induction q as [|d q IH].
  - change (EmptyString +:+ String c EmptyString) with (String c EmptyString).
    rewrite clean_before_cons.
    change (String c EmptyString +:+ s) with (String c s).
    change (clean_before sep EmptyString s) with true.
    change (clean_before sep EmptyString (String c s)) with true.
    by rewrite andb_true_r.
  - rewrite append_cons, !clean_before_cons, IH.
    rewrite !append_cons, append_snoc. by rewrite andb_assoc.
Qed.

Lemma clean_before_no_sep sep q s : clean_before sep q s = true → no_sep sep q = true.
Proof.
  induction q as [|d q IH]; [done|].
  rewrite clean_before_cons, no_sep_cons. intros [Hhead Htail]%andb_true_iff.
  apply andb_true_iff. split; [|by apply IH].
  destruct (String.prefix sep (String d q)) eqn:Hp; [|done].
  apply (prefix_append _ _ s) in Hp. by rewrite Hp in Hhead.
Qed.

(** A string without the separator is its own only piece. *)
Lemma split_from_no_sep sep s p :
  no_sep sep s = true → split_from sep 0 p s = [reversed p +:+ s].
Proof.
  revert p. induction s as [|c s IH]; intros p Hs.
  - simpl. by rewrite append_empty_r.
  - rewrite no_sep_cons in Hs. apply andb_true_iff in Hs as [Hhead Htail].
    apply negb_true_iff in Hhead.
    change (split_from sep 0 p (String c s))
      with (if String.prefix sep (String c s)
            then reversed p :: split_from sep (String.length sep - 1) EmptyString s
            else split_from sep 0 (String c p) s).
    rewrite Hhead, (IH _ Htail), reversed_cons. by rewrite append_snoc.
Qed.

(** No piece of a split contains the separator. *)
Lemma split_from_pieces sep s skip p :
  (skip = 0%nat → clean_before sep (reversed p) s = true) →
  (skip ≠ 0%nat → p = EmptyString) →
  Forall (λ piece, no_sep sep piece = true) (split_from sep skip p s).
Proof.
  revert skip p. induction s as [|c s IH]; intros skip p Hclean Hskip.
  - simpl. constructor; [|constructor]. destruct skip as [|k].
    + eapply clean_before_no_sep. by apply Hclean.
    + by rewrite Hskip.
  - destruct skip as [|k].
    + change (split_from sep 0 p (String c s))
        with (if String.prefix sep (String c s)
              then reversed p :: split_from sep (String.length sep - 1) EmptyString s
              else split_from sep 0 (String c p) s).
      destruct (String.prefix sep (String c s)) eqn:Hp.
      * constructor; [eapply clean_before_no_sep; by apply Hclean|].
        apply IH; [done|done].
      * apply IH; [|done]. intros _.
        rewrite reversed_cons, clean_before_snoc, Hp, (Hclean eq_refl). done.
    + change (split_from sep (S k) p (String c s)) with (split_from sep k p s).
      rewrite Hskip by done. apply IH; [done|done].
Qed.

Lemma replace_piece sep new s piece : piece ∈ split sep s → replace sep new piece = piece.
Proof.
  intros Hin. unfold replace, split.
  assert (no_sep sep piece = true) as Hclean.
  { pose proof (split_from_pieces sep s 0 EmptyString) as Hall.
    rewrite Forall_forall in Hall. apply Hall; [done|done|exact Hin]. }
  rewrite (split_from_no_sep sep piece EmptyString Hclean). simpl.
  reflexivity.
Qed.

End SplitFacts.

(** X15. The [replace] that [tag] applies to the piece it takes from a
    split line never changes it, since no piece of a split contains the
    separator: the name [tag] reads from a line of the remote tag list is
    the text between the first [refs/tags/] and the next one, unchanged, so
    the line of a peeled tag keeps its suffix. *)
Theorem remote_tag_name_is_piece remote_tag :
  remote_tag_name remote_tag = split "refs/tags/" remote_tag !! 1%nat.
Proof.
  unfold remote_tag_name.
  destruct (split "refs/tags/" remote_tag !! 1%nat) as [name|] eqn:Hname; [|done].
  simpl. f_equal. apply (replace_piece "refs/tags/" "^{}" remote_tag).
  apply list_elem_of_lookup. by exists 1%nat.
Qed.

Example remote_tag_name_peeled :
  remote_tag_name ("4c5b6a" +:+ tab +:+ "refs/tags/v0.1.1^{}") = Some "v0.1.1^{}".
Proof. vm_compute. reflexivity. Qed.
